(** * The synchronisation core of [singer_sdk.streams.core]

    A shallow embedding of the [Stream] base class: replication settings,
    the bookmark store the streams share, the signpost, the checkpoint step
    and the loop of [_sync_records], together with the properties of the
    specification that concern them.

    Python integers are [Z]; dictionaries keyed by strings are [gmap string];
    the partitions of a stream, whose order the loop follows, are an
    association list.  Code that mutates the shared tap state, reads the clock
    or writes messages runs in a state-and-exception monad over [world]: an
    exception leaves the world as it was when it was raised, as in Python. *)

From stdpp Require Import gmap strings list.

Open Scope Z_scope.

(** ** Values, rows and partition contexts *)

(** The values a replication key takes: integers, strings and datetimes
    (a datetime is its number of microseconds since the epoch). *)
Inductive value :=
  | VInt (n : Z)
  | VStr (s : string)
  | VTime (t : Z).

#[global] Instance value_eq_dec : EqDecision value.
Proof. solve_decision. Defined.

(** Python truthiness of a value: [0] and the empty string are falsy. *)
Definition truthy_value (v : value) : bool :=
  match v with
  | VInt n => negb (n =? 0)
  | VStr s => negb (String.eqb s "")
  | VTime _ => true
  end.

Definition truthy_str (o : option string) : bool :=
  match o with
  | Some s => negb (String.eqb s "")
  | None => false
  end.

Definition truthy_list {A} (o : option (list A)) : bool :=
  match o with
  | Some (_ :: _) => true
  | _ => false
  end.

(** A row is a dictionary from field names to values; a partition context is
    a dictionary identifying a sub-scope of a stream. *)
Abbreviation record := (gmap string value).
Abbreviation context := (gmap string string).

(** [if partition:] an absent context and the empty dictionary are both falsy. *)
Definition truthy_ctx (partition : option context) : option context :=
  match partition with
  | Some c => if decide (c = ∅) then None else Some c
  | None => None
  end.

(** ** Bookmarks and the state tree *)

(** Modelled from the spec: the bookmark helpers of [singer_sdk.helpers._state]
    are not part of the sources; section 3 gives the bookmark record: the name
    of the tracked field, the last durable value, and the transient progress
    marker holding the tentative maximum of the open pass. *)
Record progress_marker := ProgressMarker {
  pm_replication_key : string;
  pm_replication_key_value : value
}.

Record bookmark := Bookmark {
  bm_replication_key : option string;
  bm_replication_key_value : option value;
  bm_progress_markers : option progress_marker
}.

Definition empty_bookmark : bookmark := Bookmark None None None.

#[global] Instance progress_marker_eq_dec : EqDecision progress_marker.
Proof. solve_decision. Defined.
#[global] Instance bookmark_eq_dec : EqDecision bookmark.
Proof. solve_decision. Defined.

(** The entry of one stream: its own bookmark and the bookmarks of its
    partitions, in the order in which they were created. *)
Record stream_state := StreamState {
  st_bookmark : bookmark;
  st_partitions : list (context * bookmark)
}.

Definition empty_stream_state : stream_state := StreamState empty_bookmark [].

Abbreviation state_tree := (gmap string stream_state).

(** A writable state dictionary is shared, not copied: the model names it by
    its place in the tree. *)
Definition loc : Type := string * option context.

Fixpoint alist_lookup (c : context) (ps : list (context * bookmark))
  : option bookmark :=
  match ps with
  | [] => None
  | (c', b) :: ps' => if decide (c = c') then Some b else alist_lookup c ps'
  end.

(** Get-or-create followed by an update of the entry found or created. *)
Fixpoint alist_alter (f : bookmark → bookmark) (c : context)
    (ps : list (context * bookmark)) : list (context * bookmark) :=
  match ps with
  | [] => [(c, f empty_bookmark)]
  | (c', b) :: ps' =>
      if decide (c = c') then (c', f b) :: ps'
      else (c', b) :: alist_alter f c ps'
  end.

Definition stream_entry (t : state_tree) (name : string) : stream_state :=
  default empty_stream_state (t !! name).

(** The bookmark at a place; a place not yet in the tree reads as empty. *)
Definition read_bookmark (t : state_tree) (l : loc) : bookmark :=
  match l.2 with
  | None => st_bookmark (stream_entry t l.1)
  | Some c => default empty_bookmark (alist_lookup c (st_partitions (stream_entry t l.1)))
  end.

Definition alter_bookmark (f : bookmark → bookmark) (l : loc) (t : state_tree)
  : state_tree :=
  let e := stream_entry t l.1 in
  match l.2 with
  | None => <[l.1 := StreamState (f (st_bookmark e)) (st_partitions e)]> t
  | Some c => <[l.1 := StreamState (st_bookmark e) (alist_alter f c (st_partitions e))]> t
  end.

(** Modelled from the spec: [get_writeable_state_dict] is missing; section 4.1
    has [get(stream, partition)] create an empty record on first access and
    never remove one. *)
Definition get_writeable_state_dict (t : state_tree) (name : string)
    (partition : option context) : state_tree * loc :=
  (alter_bookmark id (name, partition) t, (name, partition)).

(** Modelled from the spec: [get_state_partitions_list] is missing; section
    4.1 has it list the partitions already represented in state. *)
Definition get_state_partitions_list (t : state_tree) (name : string)
  : option (list (context * bookmark)) :=
  st_partitions <$> t !! name.

(** ** The world, and the monad of the methods *)

Inductive exn :=
  | ValueError
  | KeyError
  | TypeError
  | ZeroDivisionError
  | ParserError
  | MaxRecordsLimitException
  | InvalidStreamSortException.

#[global] Instance exn_eq_dec : EqDecision exn.
Proof. solve_decision. Defined.

Inductive message :=
  | RecordMessage (stream : string) (row : record) (time_extracted : Z)
  | StateMessage (value : state_tree).

Inductive log_entry :=
  | LogSortingError (row_number : Z) (partition : option context) (ex : exn)
  | LogCompleted (stream : string) (rows_sent : Z).

(** [clock] counts the readings of the wall clock made so far; [out] is the
    output sink, oldest message first. *)
Record world := World {
  tap_state : state_tree;
  clock : nat;
  out : list message;
  log : list log_entry
}.

Inductive outcome (A : Type) :=
  | Returned (a : A)
  | Raised (e : exn).
Arguments Returned {A} a.
Arguments Raised {A} e.

Definition M (A : Type) : Type := world → outcome A * world.

#[global] Instance M_ret : MRet M := λ A a w, (Returned a, w).
#[global] Instance M_bind : MBind M := λ A B f m w,
  match m w with
  | (Returned a, w') => f a w'
  | (Raised e, w') => (Raised e, w')
  end.

Definition raise {A} (e : exn) : M A := λ w, (Raised e, w).

Definition outcome_map {A B} (f : A → B) (o : outcome A) : outcome B :=
  match o with
  | Returned a => Returned (f a)
  | Raised e => Raised e
  end.

(** A property that reads no shared state, used inside a method. *)
Definition lift {A} (o : outcome A) : M A := λ w, (o, w).

(** [try: c except e: h] *)
Definition try_except {A} (c : M A) (e : exn) (h : M A) : M A := λ w,
  match c w with
  | (Raised e', w') => if decide (e' = e) then h w' else (Raised e', w')
  | r => r
  end.

Definition get_tap_state : M state_tree := λ w, (Returned (tap_state w), w).

Definition modify_tap_state (f : state_tree → state_tree) : M unit := λ w,
  (Returned tt, World (f (tap_state w)) (clock w) (out w) (log w)).

Definition write_message (m : message) : M unit := λ w,
  (Returned tt, World (tap_state w) (clock w) (out w ++ [m]) (log w)).

Definition logger (e : log_entry) : M unit := λ w,
  (Returned tt, World (tap_state w) (clock w) (out w) (log w ++ [e])).

(** ** Stream definitions *)

Definition REPLICATION_FULL_TABLE : string := "FULL_TABLE".
Definition REPLICATION_INCREMENTAL : string := "INCREMENTAL".
Definition REPLICATION_LOG_BASED : string := "LOG_BASED".

(** Modelled from the spec: [is_datetime_type] of [singer_sdk.helpers._typing]
    is missing; the spec uses of a type descriptor only whether the field is
    timestamp-typed. *)
Inductive type_dict :=
  | DateTimeType
  | OtherType.

Definition is_datetime_type (type_dict : option type_dict) : bool :=
  match type_dict with
  | Some DateTimeType => true
  | _ => false
  end.

(** An entry of the input catalog (section 6 of the spec): the keys and the
    replication settings it declares, and the fields it marks as deselected. *)
Module CatalogEntry.
Record t := Make {
  tap_stream_id : string;
  key_properties : option (list string);
  replication_key : option string;
  replication_method : option string;
  deselected_fields : list string
}.
End CatalogEntry.

(** [Catalog.get_stream]: the first entry with the given id. *)
Fixpoint get_stream (catalog : list CatalogEntry.t) (tap_stream_id : string)
  : option CatalogEntry.t :=
  match catalog with
  | [] => None
  | e :: rest =>
      if String.eqb (CatalogEntry.tap_stream_id e) tap_stream_id then Some e
      else get_stream rest tap_stream_id
  end.

(** The attributes of a [Stream] object.  [_schema] is the resolved schema
    (its properties), [None] when neither an object nor a file provides one.
    [is_sorted], [get_records], [STATE_MSG_FREQUENCY] and
    [_MAX_RECORDS_LIMIT] are what a concrete stream class supplies. *)
Record Stream := MkStream {
  name : string;
  _config : gmap string value;
  _tap_input_catalog : option (list CatalogEntry.t);
  forced_replication_method : option string;
  _replication_key : option string;
  _primary_keys : option (list string);
  _schema : option (gmap string type_dict);
  is_sorted : bool;
  STATE_MSG_FREQUENCY : Z;
  _MAX_RECORDS_LIMIT : option Z;
  get_records : option context → list record
}.

Definition primary_keys (self : Stream) : option (list string) :=
  if truthy_list (_primary_keys self) then _primary_keys self else None.

Definition set_primary_keys (self : Stream) (new_value : option (list string))
  : Stream :=
  MkStream (name self) (_config self) (_tap_input_catalog self)
    (forced_replication_method self) (_replication_key self) new_value
    (_schema self) (is_sorted self) (STATE_MSG_FREQUENCY self)
    (_MAX_RECORDS_LIMIT self) (get_records self).

Definition replication_key (self : Stream) : option string :=
  if truthy_str (_replication_key self) then _replication_key self else None.

Definition set_replication_key (self : Stream) (new_value : option string)
  : Stream :=
  MkStream (name self) (_config self) (_tap_input_catalog self)
    (forced_replication_method self) new_value (_primary_keys self)
    (_schema self) (is_sorted self) (STATE_MSG_FREQUENCY self)
    (_MAX_RECORDS_LIMIT self) (get_records self).

Definition set_forced_replication_method (self : Stream)
    (new_value : option string) : Stream :=
  MkStream (name self) (_config self) (_tap_input_catalog self)
    new_value (_replication_key self) (_primary_keys self)
    (_schema self) (is_sorted self) (STATE_MSG_FREQUENCY self)
    (_MAX_RECORDS_LIMIT self) (get_records self).

Definition set_tap_input_catalog (self : Stream)
    (new_value : option (list CatalogEntry.t)) : Stream :=
  MkStream (name self) (_config self) new_value
    (forced_replication_method self) (_replication_key self)
    (_primary_keys self) (_schema self) (is_sorted self)
    (STATE_MSG_FREQUENCY self) (_MAX_RECORDS_LIMIT self) (get_records self).

Definition tap_stream_id (self : Stream) : string := name self.

Definition replication_method (self : Stream) : string :=
  match forced_replication_method self with
  | Some m =>
      if truthy_str (Some m) then m
      else if truthy_str (replication_key self) then REPLICATION_INCREMENTAL
      else REPLICATION_FULL_TABLE
  | None =>
      if truthy_str (replication_key self) then REPLICATION_INCREMENTAL
      else REPLICATION_FULL_TABLE
  end.

Definition apply_catalog (self : Stream) (catalog_dict : list CatalogEntry.t)
  : Stream :=
  let self := set_tap_input_catalog self (Some catalog_dict) in
  match get_stream catalog_dict (name self) with
  | Some catalog_entry =>
      let self := set_primary_keys self (CatalogEntry.key_properties catalog_entry) in
      let self := set_replication_key self (CatalogEntry.replication_key catalog_entry) in
      if truthy_str (CatalogEntry.replication_method catalog_entry)
      then set_forced_replication_method self
             (CatalogEntry.replication_method catalog_entry)
      else self
  | None => self
  end.

(** The [schema] property reads no shared state: it returns the schema or
    raises [ValueError] when there is none. *)
Definition schema (self : Stream) : outcome (gmap string type_dict) :=
  match _schema self with
  | Some s => Returned s
  | None => Raised ValueError
  end.

Definition is_timestamp_replication_key (self : Stream) : outcome bool :=
  match replication_key self with
  | None => Returned false
  | Some rk =>
      match schema self with
      | Returned s => Returned (is_datetime_type (s !! rk))
      | Raised e => Raised e
      end
  end.

Definition get_stream_or_partition_state (self : Stream)
    (partition : option context) : M loc := λ w,
  let '(t, l) :=
    get_writeable_state_dict (tap_state w) (name self) (truthy_ctx partition) in
  (Returned l, World t (clock w) (out w) (log w)).

(** [self.partitions]: the contexts of the partitions already in state,
    [None] when there is none. *)
Definition partitions (self : Stream) : M (option (list context)) :=
  t ← get_tap_state;
  let result := fst <$> default [] (get_state_partitions_list t (name self)) in
  mret (match result with [] => None | _ => Some result end).

(** Modelled from the spec: [pop_deselected_record_properties] of
    [singer_sdk.helpers._catalog] is missing; section 4.3 has it drop every
    field of the row that the catalog explicitly deselects.  The metadata is
    that of the stream's entry in the input catalog when there is one, and the
    standard metadata, which deselects nothing, otherwise. *)
Definition pop_deselected_record_properties (row : record)
    (catalog : option (list CatalogEntry.t)) (stream_name : string) : record :=
  match catalog with
  | Some entries =>
      match get_stream entries stream_name with
      | Some e =>
          filter (λ kv, kv.1 ∉ CatalogEntry.deselected_fields e) row
      | None => row
      end
  | None => row
  end.

(** ** Ordering of replication-key values *)

(** Modelled from the spec: section 4.4 compares timestamps chronologically
    and other values by their natural ordering; values of different types
    have no order. *)
Definition value_compare (a b : value) : option comparison :=
  match a, b with
  | VInt x, VInt y => Some (x ?= y)
  | VStr x, VStr y => Some (String.compare x y)
  | VTime x, VTime y => Some (x ?= y)
  | _, _ => None
  end.

Definition value_gt (a b : value) : M bool :=
  match value_compare a b with
  | Some Gt => mret true
  | Some _ => mret false
  | None => raise TypeError
  end.

Definition value_lt (a b : value) : M bool :=
  match value_compare a b with
  | Some Lt => mret true
  | Some _ => mret false
  | None => raise TypeError
  end.

(** ** The checkpoint engine *)

Definition set_progress_marker (m : option progress_marker) (b : bookmark)
  : bookmark :=
  Bookmark (bm_replication_key b) (bm_replication_key_value b) m.

Definition promote_progress_marker (b : bookmark) : bookmark :=
  match bm_progress_markers b with
  | Some m =>
      Bookmark (Some (pm_replication_key m))
        (Some (pm_replication_key_value m)) None
  | None => b
  end.

(** Modelled from the spec: [reset_state_progress_markers] is missing; section
    4.5 resets the transient progress markers of the partition to empty. *)
Definition reset_state_progress_markers (state : loc) : M unit :=
  modify_tap_state (alter_bookmark (set_progress_marker None) state).

(** Modelled from the spec: [finalize_state_progress_markers] is missing;
    section 4.4 (6) promotes the progress-marker maximum to the bookmark's
    [replication_key_value] and discards the marker. *)
Definition finalize_state_progress_markers (state : loc) : M unit :=
  modify_tap_state (alter_bookmark promote_progress_marker state).

(** Modelled from the spec: [increment_state] is missing; section 4.4, steps
    3 to 5: the candidate is the row's value of the replication key; a
    candidate above the ceiling is ignored; a candidate below the tentative
    maximum [M] of a sorted stream is an ordering error; otherwise [M]
    becomes the larger of [M] and the candidate. *)
Definition increment_state (state : loc) (replication_key : string)
    (replication_key_signpost : option value) (latest_record : record)
    (is_sorted : bool) : M unit :=
  match latest_record !! replication_key with
  | None => raise KeyError
  | Some candidate_value =>
      over ← match replication_key_signpost with
             | Some ceiling => value_gt candidate_value ceiling
             | None => mret false
             end;
      if (over : bool) then mret tt
      else
        t ← get_tap_state;
        match bm_progress_markers (read_bookmark t state) with
        | None =>
            modify_tap_state (alter_bookmark
              (set_progress_marker
                 (Some (ProgressMarker replication_key candidate_value))) state)
        | Some m =>
            below ← value_lt candidate_value (pm_replication_key_value m);
            if (below : bool) then
              if is_sorted then raise InvalidStreamSortException
              else mret tt
            else
              modify_tap_state (alter_bookmark
                (set_progress_marker
                   (Some (ProgressMarker replication_key candidate_value))) state)
        end
  end.

(** ** The catalog a stream declares *)

(** A [singer.CatalogEntry] as [_singer_catalog_entry] builds it; the fields
    it sets to [None] ([is_view], [database], [table], [row_count],
    [stream_alias]) are left out.  The metadata is kept as the list of the
    fields it deselects, as in [CatalogEntry.t]. *)
Module SingerCatalogEntry.
Record t := Make {
  tap_stream_id : string;
  stream : string;
  schema : gmap string type_dict;
  metadata : list string;
  key_properties : option (list string);
  replication_key : option string;
  replication_method : option string
}.
End SingerCatalogEntry.

(** [to_dict] followed by [Catalog.from_dict]: the entry as a catalog that
    is fed back to a stream presents it. *)
Definition as_input_entry (e : SingerCatalogEntry.t) : CatalogEntry.t :=
  CatalogEntry.Make (SingerCatalogEntry.tap_stream_id e)
    (SingerCatalogEntry.key_properties e)
    (SingerCatalogEntry.replication_key e)
    (SingerCatalogEntry.replication_method e)
    (SingerCatalogEntry.metadata e).

(** [_singer_metadata]: the metadata of the stream's entry in the input
    catalog when there is one; the standard metadata of the schema, which
    deselects nothing, otherwise. *)
Definition _singer_metadata (self : Stream) : outcome (list string) :=
  let standard :=
    match schema self with
    | Returned _ => Returned []
    | Raised e => Raised e
    end in
  match _tap_input_catalog self with
  | Some catalog =>
      match get_stream catalog (tap_stream_id self) with
      | Some catalog_entry =>
          Returned (CatalogEntry.deselected_fields catalog_entry)
      | None => standard
      end
  | None => standard
  end.

(** [_singer_catalog_entry]: the schema is read first, so that a stream
    without schema raises [ValueError] whatever its catalog. *)
Definition _singer_catalog_entry (self : Stream)
  : outcome SingerCatalogEntry.t :=
  match schema self with
  | Raised e => Raised e
  | Returned s =>
      match _singer_metadata self with
      | Raised e => Raised e
      | Returned md =>
          Returned (SingerCatalogEntry.Make (tap_stream_id self) (name self) s
                      md (primary_keys self) (replication_key self)
                      (Some (replication_method self)))
      end
  end.

Definition _singer_catalog (self : Stream)
  : outcome (list SingerCatalogEntry.t) :=
  outcome_map (λ e, [e]) (_singer_catalog_entry self).

(** ** Concrete clocks, collaborators and streams *)

(** A clock that advances by one microsecond at each reading, and one that
    stands still. *)
Definition ticking_clock (k : nat) : Z := 1000 + Z.of_nat k.
Definition frozen_clock (k : nat) : Z := 1000.

Definition parse_2021 (s : string) : option Z :=
  if String.eqb s "2021-01-01T00:00:00Z" then Some 1609459200000000
  else if String.eqb s "2020-01-01T00:00:00Z" then Some 1577836800000000
  else None.

Definition conform_id (stream_name : string) (row : record)
    (schema : gmap string type_dict) : record := row.

Definition users_schema : gmap string type_dict :=
  {[ "id" := OtherType; "updated_at" := DateTimeType ]}.

Definition int_rows (rk : string) (vs : list Z) : list record :=
  (λ v, {[ rk := VInt v ]}) <$> vs.

Definition empty_world : world := World ∅ 0 [] [].

(** An incremental stream on a timestamp key, with one row stamped one
    microsecond after the frozen clock. *)
Definition updated_at_stream : Stream :=
  MkStream "users" {[ "start_date" := VStr "2020-01-01T00:00:00Z" ]} None None
    (Some "updated_at") (Some ["id"]) (Some users_schema) false 10000 None
    (λ _, [ {[ "id" := VInt 1; "updated_at" := VTime 1001 ]} ]).

(** Sorted incremental streams on an integer key. *)
Definition sorted_stream (vs : list Z) : Stream :=
  MkStream "users" ∅ None None (Some "id") None (Some users_schema) true
    10000 None (λ _, int_rows "id" vs).

(** A stream without replication key: seven rows, a state message every
    three. *)
Definition full_table_stream : Stream :=
  MkStream "users" ∅ None None None None (Some users_schema) false 3 None
    (λ _, int_rows "id" [1; 2; 3; 4; 5; 6; 7]).

(** A stream forced to INCREMENTAL that has no replication key. *)
Definition misconfigured_stream : Stream :=
  MkStream "users" ∅ None (Some "INCREMENTAL") None None (Some users_schema)
    false 10000 None (λ _, int_rows "id" [1]).

(** An incremental stream capped at one record, one row in each partition. *)
Definition capped_stream : Stream :=
  MkStream "users" ∅ None None (Some "id") None (Some users_schema) false 10000
    (Some 1) (λ _, int_rows "id" [1]).

Definition partition_a : context := {[ "id" := "a" ]}.
Definition partition_b : context := {[ "id" := "b" ]}.

(** A state tree in which the partitions [a] and [b] of the stream are
    already represented. *)
Definition two_partitions : state_tree :=
  alter_bookmark id ("users", Some partition_b)
    (alter_bookmark id ("users", Some partition_a) ∅).

(** A catalog entry for the stream that declares neither keys nor method. *)
Definition bare_entry : CatalogEntry.t :=
  CatalogEntry.Make "users" None None None [].

(** A state tree holding a bookmark of the stream under a given key. *)
Definition bookmarked (key : string) : state_tree :=
  alter_bookmark
    (λ _, Bookmark (Some key) (Some (VStr "2021-01-01T00:00:00Z")) None)
    ("users", None) ∅.

(** An unsorted incremental stream on an integer key. *)
Definition unsorted_stream (vs : list Z) : Stream :=
  MkStream "users" ∅ None None (Some "id") None (Some users_schema) false
    10000 None (λ _, int_rows "id" vs).

(** A stream with nothing right but no rows either: no schema, a forced
    method without key, a frequency of zero. *)
Definition idle_stream : Stream :=
  MkStream "users" ∅ None (Some "INCREMENTAL") None None None false 0 None
    (λ _, []).

(** A stream that keeps no bookmark, with a frequency of zero. *)
Definition zero_frequency_stream : Stream :=
  MkStream "users" ∅ None None None None (Some users_schema) false 0 None
    (λ _, int_rows "id" [1; 2; 3]).

(** Catalog entries for the stream: one that deselects the replication key,
    one that declares FULL_TABLE, one that declares LOG_BASED and no key. *)
Definition hidden_key_entry : CatalogEntry.t :=
  CatalogEntry.Make "users" (Some ["id"]) (Some "updated_at") None
    ["updated_at"].
Definition full_table_entry : CatalogEntry.t :=
  CatalogEntry.Make "users" (Some ["id"]) (Some "updated_at")
    (Some "FULL_TABLE") [].
Definition log_based_entry : CatalogEntry.t :=
  CatalogEntry.Make "users" None None (Some "LOG_BASED") [].

Definition hidden_key_stream : Stream :=
  apply_catalog updated_at_stream [hidden_key_entry].

(** An incremental stream on a timestamp key whose two rows carry the same
    stamp, two microseconds after the first reading of the ticking clock. *)
Definition late_rows : list record :=
  [ {[ "id" := VInt 1; "updated_at" := VTime 1002 ]};
    {[ "id" := VInt 2; "updated_at" := VTime 1002 ]} ].

Definition late_rows_stream : Stream :=
  MkStream "users" ∅ None None (Some "updated_at") (Some ["id"])
    (Some users_schema) false 10000 None (λ _, late_rows).

Section Methods.

(** The wall clock: [now k] is the datetime of its [k]-th reading. *)
Variable now : nat → Z.

(** [pendulum.parse] on a string; [None] when the string does not parse. *)
Variable pendulum_parse : string → option Z.

(** [conform_record_data_types]: the type coercion of a row, which the
    spec leaves to a collaborator. *)
Variable conform_record_data_types :
  string → record → gmap string type_dict → record.

Definition utc_now : M Z := λ w,
  (Returned (now (clock w)),
   World (tap_state w) (S (clock w)) (out w) (log w)).

(** [pendulum.parse] on a value: only a string can be parsed. *)
Definition parse (v : value) : outcome Z :=
  match v with
  | VStr s =>
      match pendulum_parse s with
      | Some t => Returned t
      | None => Raised ParserError
      end
  | _ => Raised TypeError
  end.

Definition get_starting_timestamp (self : Stream)
    (partition : option context) : M (option Z) :=
  let start_date : M (option Z) :=
    match _config self !! "start_date" with
    | Some d => t ← lift (parse d); mret (Some t)
    | None => mret None
    end in
  ts ← lift (is_timestamp_replication_key self);
  if (ts : bool) then
    state ← get_stream_or_partition_state self partition;
    t ← get_tap_state;
    match bm_replication_key_value (read_bookmark t state) with
    | Some replication_key_value =>
        if truthy_value replication_key_value
           && bool_decide (replication_key self
                           = bm_replication_key (read_bookmark t state))
        then r ← lift (parse replication_key_value); mret (Some r)
        else start_date
    | None => start_date
    end
  else start_date.

Definition get_replication_key_signpost (self : Stream)
    (partition : option context) : M (option value) :=
  ts ← lift (is_timestamp_replication_key self);
  if (ts : bool) then t ← utc_now; mret (Some (VTime t))
  else mret None.

Definition _increment_stream_state (self : Stream) (latest_record : record)
    (partition : option context) : M unit :=
  state_dict ← get_stream_or_partition_state self partition;
  if decide (latest_record = ∅) then mret tt
  else if bool_decide (replication_method self
                       ∈ [REPLICATION_INCREMENTAL; REPLICATION_LOG_BASED])
  then
    match replication_key self with
    | None => raise ValueError
    | Some rk =>
        signpost ← get_replication_key_signpost self partition;
        increment_state state_dict rk signpost latest_record (is_sorted self)
    end
  else mret tt.

Definition _write_state_message : M unit :=
  t ← get_tap_state; write_message (StateMessage t).

(** The row is stripped of its deselected fields in place: the caller's
    dictionary is the stripped one afterwards, which is what is returned.
    [time_extracted] is [pendulum.now()], a reading of the same clock. *)
Definition _write_record_message (self : Stream) (row : record) : M record :=
  s ← lift (schema self);
  let row :=
    pop_deselected_record_properties row (_tap_input_catalog self) (name self) in
  let conformed := conform_record_data_types (name self) row s in
  time_extracted ← utc_now;
  write_message (RecordMessage (name self) conformed time_extracted);;
  mret row.

(** The body of the loop over the rows of a partition; returns the new
    [rows_sent]. *)
Definition _sync_records_row (self : Stream) (partition : option context)
    (rows_sent : Z) (row_dict : record) : M Z :=
  match _MAX_RECORDS_LIMIT self with
  | Some limit =>
      if limit <=? rows_sent then raise MaxRecordsLimitException else mret tt
  | None => mret tt
  end;;
  flush ← (if rows_sent =? 0 then mret false
           else if STATE_MSG_FREQUENCY self =? 0 then raise ZeroDivisionError
           else mret ((rows_sent - 1) `mod` STATE_MSG_FREQUENCY self =? 0));
  (if (flush : bool) then _write_state_message else mret tt);;
  row_dict ← _write_record_message self row_dict;
  try_except (_increment_stream_state self row_dict partition)
    InvalidStreamSortException
    (logger (LogSortingError (rows_sent + 1) (truthy_ctx partition)
               InvalidStreamSortException);;
     raise InvalidStreamSortException);;
  mret (rows_sent + 1).

Fixpoint _sync_records_rows (self : Stream) (partition : option context)
    (rows : list record) (rows_sent : Z) : M Z :=
  match rows with
  | [] => mret rows_sent
  | row_dict :: rest =>
      rows_sent ← _sync_records_row self partition rows_sent row_dict;
      _sync_records_rows self partition rest rows_sent
  end.

Fixpoint _sync_records_partitions (self : Stream)
    (partitions : list (option context)) (rows_sent : Z) : M Z :=
  match partitions with
  | [] => mret rows_sent
  | partition :: rest =>
      state ← get_stream_or_partition_state self partition;
      reset_state_progress_markers state;;
      rows_sent ← _sync_records_rows self partition
                    (get_records self partition) rows_sent;
      finalize_state_progress_markers state;;
      _sync_records_partitions self rest rows_sent
  end.

Definition _sync_records (self : Stream) (partition : option context)
  : M unit :=
  partitions ←
    match truthy_ctx partition with
    | Some _ => mret [partition]
    | None =>
        ps ← partitions self;
        match ps with
        | Some l => mret (Some <$> l)
        | None => mret [None]
        end
    end;
  rows_sent ← _sync_records_partitions self partitions 0;
  logger (LogCompleted (name self) rows_sent);;
  _write_state_message.

(** ** Vocabulary of the statements *)

(** The intermediate flush is due before a row when [rows_sent] is not zero
    and [(rows_sent - 1) % STATE_MSG_FREQUENCY] is zero. *)
Definition flush_due (self : Stream) (rows_sent : Z) : bool :=
  negb (rows_sent =? 0)
  && ((rows_sent - 1) `mod` STATE_MSG_FREQUENCY self =? 0).

(** The row as the record message carries it. *)
Definition emitted (self : Stream) (raw : record) : record :=
  conform_record_data_types (name self)
    (pop_deselected_record_properties raw (_tap_input_catalog self)
       (name self))
    (default ∅ (_schema self)).

Definition record_message (self : Stream) (raw : record) (time_extracted : Z)
  : message :=
  RecordMessage (name self) (emitted self raw) time_extracted.

(** What the loop writes for a row before it calls the checkpoint step. *)
Definition row_messages (self : Stream) (rows_sent : Z) (raw : record)
    (w : world) : list message :=
  (if flush_due self rows_sent then [StateMessage (tap_state w)] else [])
  ++ [record_message self raw (now (clock w))].

(** The conditions under which the loop reaches the checkpoint step of a row:
    a schema, the record cap not reached, and a frequency that can divide. *)
Definition row_ready (self : Stream) (rows_sent : Z) : Prop :=
  is_Some (_schema self)
  ∧ from_option (λ limit, rows_sent < limit) True (_MAX_RECORDS_LIMIT self)
  ∧ (rows_sent = 0 ∨ STATE_MSG_FREQUENCY self ≠ 0).

(** The partitions [_sync_records] goes through, from its argument and the
    state tree at the start. *)
Definition planned_partitions (self : Stream) (partition : option context)
    (t : state_tree) : list (option context) :=
  match truthy_ctx partition with
  | Some _ => [partition]
  | None =>
      match fst <$> default [] (get_state_partitions_list t (name self)) with
      | [] => [None]
      | l => Some <$> l
      end
  end.

(** The durable part of a bookmark: what a state message is read for. *)
Definition durable (b : bookmark) : option string * option value :=
  (bm_replication_key b, bm_replication_key_value b).

(** The record cap leaves room for [n] more rows. *)
Definition cap_allows (self : Stream) (rows_sent : Z) (n : nat) : Prop :=
  from_option (λ limit, rows_sent + Z.of_nat n ≤ limit) True
    (_MAX_RECORDS_LIMIT self).

(** The world in which the rows of a partition are pulled: its state entry
    got or created, its progress markers reset. *)
Definition partition_opened (self : Stream) (partition : option context)
    (w : world) : world :=
  World
    (alter_bookmark (set_progress_marker None) (name self, truthy_ctx partition)
       (alter_bookmark id (name self, truthy_ctx partition) (tap_state w)))
    (clock w) (out w) (log w).

(** The tentative maximum at a place, when there is one. *)
Definition marker_value (t : state_tree) (l : loc) : option value :=
  pm_replication_key_value <$> bm_progress_markers (read_bookmark t l).

(** The values of the replication key in the rows the checkpoint step sees. *)
Definition key_values (self : Stream) (rk : string) (rows : list record)
  : list (option value) :=
  (λ raw, pop_deselected_record_properties raw (_tap_input_catalog self)
            (name self) !! rk) <$> rows.

(** Integers that never fall below the one before, starting above [m]. *)
Fixpoint ascending (m : option Z) (vs : list Z) : Prop :=
  match vs with
  | [] => True
  | v :: rest => from_option (λ u, u ≤ v) True m ∧ ascending (Some v) rest
  end.

Definition last_value (m : option Z) (vs : list Z) : option Z :=
  foldl (λ _ v, Some v) m vs.

Definition is_record_message (m : message) : bool :=
  match m with RecordMessage _ _ _ => true | StateMessage _ => false end.

(** The rows carried by the record messages of an output, in order. *)
Definition emitted_rows (ms : list message) : list record :=
  omap (λ m, match m with
             | RecordMessage _ row _ => Some row
             | StateMessage _ => None
             end) ms.

(** The kinds of the messages of an output: [true] for a record message,
    [false] for a state message. *)
Definition kinds (ms : list message) : list bool := is_record_message <$> ms.

(** For each state message of an output, the number of record messages
    written before it. *)
Fixpoint flush_points (seen : Z) (ks : list bool) : list Z :=
  match ks with
  | [] => []
  | true :: rest => flush_points (seen + 1) rest
  | false :: rest => seen :: flush_points seen rest
  end.

(** The kinds of the messages the loop writes for [n] rows, the first of
    them met with [rows_sent] rows already sent. *)
Fixpoint expected_kinds (self : Stream) (rows_sent : Z) (n : nat) : list bool :=
  match n with
  | O => []
  | S n' =>
      (if flush_due self rows_sent then [false] else [])
      ++ true :: expected_kinds self (rows_sent + 1) n'
  end.

(** All the rows of a list of partitions, in the order of the loop. *)
Definition all_rows (self : Stream) (ps : list (option context))
  : list record :=
  concat (get_records self <$> ps).

(** The greatest of [m] and the integers of a list, as the checkpoints of an
    unsorted stream accumulate it. *)
Definition running_max (m : option Z) (vs : list Z) : option Z :=
  foldl (λ m v, Some (from_option (Z.max v) v m)) m vs.

(** The tentative maximum of a partition, when there is one, is a timestamp
    that is not after the last reading of the clock. *)
Definition marker_behind_clock (self : Stream) (partition : option context)
    (w : world) : Prop :=
  ∀ m,
    bm_progress_markers
      (read_bookmark (tap_state w) (name self, truthy_ctx partition))
    = Some m →
    ∃ t, pm_replication_key_value m = VTime t
         ∧ (0 < clock w)%nat ∧ t ≤ now (pred (clock w)).

(** ** The state store *)

Lemma alist_lookup_alter f c ps :
  alist_lookup c (alist_alter f c ps)
  = Some (f (default empty_bookmark (alist_lookup c ps))).
Proof.
  induction ps as [|[c' b] ps IH]; simpl.
  - by rewrite decide_True.
  - destruct (decide (c = c')) as [->|Hne]; simpl.
    + by rewrite decide_True.
    + by rewrite decide_False.
Qed.

Lemma alist_lookup_alter_ne f c c' ps :
  c ≠ c' → alist_lookup c' (alist_alter f c ps) = alist_lookup c' ps.
Proof.
  intros Hne. induction ps as [|[c'' b] ps IH]; simpl.
  - by rewrite decide_False.
  - destruct (decide (c = c'')) as [->|Hne']; simpl.
    + by rewrite !decide_False.
    + by rewrite IH.
Qed.

Lemma stream_entry_insert (t : state_tree) n e :
  stream_entry (<[n := e]> t) n = e.
Proof. unfold stream_entry. by rewrite lookup_insert_eq. Qed.

Lemma stream_entry_insert_ne (t : state_tree) n n' e :
  n ≠ n' → stream_entry (<[n := e]> t) n' = stream_entry t n'.
Proof. intros. unfold stream_entry. by rewrite lookup_insert_ne. Qed.

(** Reading the place that was altered. *)
Lemma read_alter f l t :
  read_bookmark (alter_bookmark f l t) l = f (read_bookmark t l).
Proof.
  destruct l as [n [c|]]; unfold read_bookmark, alter_bookmark; simpl;
    rewrite stream_entry_insert; simpl; [|done].
  by rewrite alist_lookup_alter.
Qed.

(** Every other place, of this stream or of another, keeps its bookmark. *)
Lemma read_alter_ne f l l' t :
  l ≠ l' → read_bookmark (alter_bookmark f l t) l' = read_bookmark t l'.
Proof.
  destruct l as [n p], l' as [n' p']. intros Hne.
  unfold read_bookmark, alter_bookmark; simpl.
  destruct (decide (n = n')) as [->|Hn].
  - destruct p as [c|], p' as [c'|]; rewrite stream_entry_insert; simpl;
      try done.
    rewrite alist_lookup_alter_ne; [done|congruence].
  - destruct p as [c|]; by rewrite stream_entry_insert_ne.
Qed.

(** Get-or-create changes no bookmark. *)
Lemma read_alter_id l l' t :
  read_bookmark (alter_bookmark id l t) l' = read_bookmark t l'.
Proof.
  destruct (decide (l = l')) as [->|Hne].
  - by rewrite read_alter.
  - by rewrite read_alter_ne.
Qed.

(** ** Running the monad *)

Lemma bind_returned {A B} (c : M A) (k : A → M B) w a w' :
  c w = (Returned a, w') → (c ≫= k) w = k a w'.
Proof. intros H. unfold mbind, M_bind. by rewrite H. Qed.

Lemma bind_raised {A B} (c : M A) (k : A → M B) w e w' :
  c w = (Raised e, w') → (c ≫= k) w = (Raised e, w').
Proof. intros H. unfold mbind, M_bind. by rewrite H. Qed.

Ltac unfold_M :=
  unfold mbind, M_bind, mret, M_ret, raise, lift, try_except, get_tap_state,
    modify_tap_state, write_message, logger, utc_now in *.

Lemma get_stream_or_partition_state_eq self partition w :
  get_stream_or_partition_state self partition w
  = (Returned (name self, truthy_ctx partition),
     World (alter_bookmark id (name self, truthy_ctx partition) (tap_state w))
       (clock w) (out w) (log w)).
Proof. done. Qed.

(** ** Replication method *)

(** C9.  The replication method is the forced method when one is set (a
    non-empty string), else INCREMENTAL when a replication key is set, else
    FULL_TABLE. *)
Theorem replication_method_derived (self : Stream) :
  replication_method self
  = if truthy_str (forced_replication_method self)
    then default "" (forced_replication_method self)
    else if bool_decide (is_Some (replication_key self))
         then REPLICATION_INCREMENTAL
         else REPLICATION_FULL_TABLE.
Proof.
  unfold replication_method.
  assert (truthy_str (replication_key self)
          = bool_decide (is_Some (replication_key self))) as ->.
  { unfold replication_key.
    destruct (truthy_str (_replication_key self)) eqn:E.
    - rewrite E. destruct (_replication_key self); [|done].
      by rewrite bool_decide_true.
    - symmetry. apply bool_decide_eq_false. by intros [? ?]. }
  destruct (forced_replication_method self) as [m|]; [|done].
  by destruct (truthy_str (Some m)).
Qed.

(** ** Starting timestamp *)

(** C10.  When the key is timestamp-typed, the bookmark holds a value and
    was recorded under the stream's current replication key, the starting
    timestamp is that value, parsed; in every other case it is the parsed
    [start_date] of the configuration when there is one, and [None]
    otherwise. *)
Theorem get_starting_timestamp_resume (self : Stream)
    (partition : option context) (w : world) (ts : bool) :
  is_timestamp_replication_key self = Returned ts →
  let b := read_bookmark (tap_state w) (name self, truthy_ctx partition) in
  (get_starting_timestamp self partition w).1
  = if ts
       && bool_decide (replication_key self = bm_replication_key b)
       && from_option truthy_value false (bm_replication_key_value b)
    then from_option (λ v, outcome_map Some (parse v)) (Returned None)
           (bm_replication_key_value b)
    else from_option (λ d, outcome_map Some (parse d)) (Returned None)
           (_config self !! "start_date").
Proof.
  intros Hts b. unfold get_starting_timestamp.
  rewrite (bind_returned _ _ w ts w); [|by unfold lift; rewrite Hts].
  assert (∀ (d : value) w0,
    ((t ← lift (parse d); mret (Some t)) w0).1 = outcome_map Some (parse d))
    as Hparse.
  { intros d w0. unfold_M. by destruct (parse d). }
  assert (∀ w0,
    (match _config self !! "start_date" with
     | Some d => t ← lift (parse d); mret (Some t)
     | None => mret None
     end w0).1
    = from_option (λ d, outcome_map Some (parse d)) (Returned None)
        (_config self !! "start_date")) as Hstart.
  { intros w0. destruct (_config self !! "start_date"); [|done].
    apply Hparse. }
  destruct ts; simpl; [|apply Hstart].
  erewrite bind_returned; [|apply get_stream_or_partition_state_eq].
  erewrite bind_returned; [|done]. simpl.
  rewrite read_alter_id. fold b.
  destruct (bm_replication_key_value b) as [v|]; simpl.
  - destruct (truthy_value v),
      (bool_decide (replication_key self = bm_replication_key b)); simpl;
      first [apply Hparse | apply Hstart].
  - rewrite andb_false_r. apply Hstart.
Qed.

(** ** What a checkpoint step touches *)

(** [increment_state] writes no message, reads no clock, and leaves every
    place other than its own as it was. *)
Lemma increment_state_frame state rk signpost row sorted w :
  let w' := (increment_state state rk signpost row sorted w).2 in
  clock w' = clock w ∧ out w' = out w ∧ log w' = log w
  ∧ ∀ l, l ≠ state →
      read_bookmark (tap_state w') l = read_bookmark (tap_state w) l.
Proof.
  unfold increment_state, value_gt, value_lt. unfold_M.
  repeat case_match; simplify_eq/=; repeat split; try done;
    intros; by rewrite read_alter_ne.
Qed.

(** It moves the progress marker only: the durable fields stay. *)
Lemma increment_state_durable state rk signpost row sorted w :
  let w' := (increment_state state rk signpost row sorted w).2 in
  bm_replication_key (read_bookmark (tap_state w') state)
  = bm_replication_key (read_bookmark (tap_state w) state)
  ∧ bm_replication_key_value (read_bookmark (tap_state w') state)
    = bm_replication_key_value (read_bookmark (tap_state w) state).
Proof.
  unfold increment_state, value_gt, value_lt. unfold_M.
  repeat case_match; simplify_eq/=; by rewrite ?read_alter.
Qed.

(** A row that is empty, or a stream that is neither INCREMENTAL nor
    LOG_BASED: the step only gets (or creates) the state entry. *)
Lemma _increment_stream_state_noop self row partition w :
  row = ∅ ∨ replication_method self
            ∉ [REPLICATION_INCREMENTAL; REPLICATION_LOG_BASED] →
  _increment_stream_state self row partition w
  = (Returned tt,
     World (alter_bookmark id (name self, truthy_ctx partition) (tap_state w))
       (clock w) (out w) (log w)).
Proof.
  intros H. unfold _increment_stream_state.
  erewrite bind_returned; [|apply get_stream_or_partition_state_eq].
  destruct (decide (row = ∅)) as [|Hne]; [done|].
  destruct H as [|H]; [done|]. by rewrite bool_decide_false.
Qed.

(** The same holds of the whole step, which may read the clock. *)
Lemma _increment_stream_state_frame self row partition w :
  let w' := (_increment_stream_state self row partition w).2 in
  out w' = out w ∧ log w' = log w
  ∧ ∀ l, l ≠ (name self, truthy_ctx partition) →
      read_bookmark (tap_state w') l = read_bookmark (tap_state w) l.
Proof.
  unfold _increment_stream_state.
  erewrite bind_returned; [|apply get_stream_or_partition_state_eq].
  destruct (decide (row = ∅)); simpl.
  { repeat split; try done. intros. by rewrite read_alter_ne. }
  destruct (bool_decide _); simpl;
    [|repeat split; try done; intros; by rewrite read_alter_ne].
  destruct (replication_key self) as [rk|]; simpl;
    [|repeat split; try done; intros; by rewrite read_alter_ne].
  unfold get_replication_key_signpost.
  destruct (is_timestamp_replication_key self) as [[]|e]; unfold_M; simpl;
    try (repeat split; try done; intros; by rewrite read_alter_ne).
  - match goal with |- context [increment_state ?a ?b ?c ?d ?e ?w0] =>
      pose proof (increment_state_frame a b c d e w0) as Hf;
      destruct (increment_state a b c d e w0) as [o w1] end.
    simpl in *. destruct Hf as (_ & -> & -> & Hf).
    repeat split; try done. intros l Hl. rewrite Hf; [|done].
    by rewrite read_alter_ne.
  - match goal with |- context [increment_state ?a ?b ?c ?d ?e ?w0] =>
      pose proof (increment_state_frame a b c d e w0) as Hf;
      destruct (increment_state a b c d e w0) as [o w1] end.
    simpl in *. destruct Hf as (_ & -> & -> & Hf).
    repeat split; try done. intros l Hl. rewrite Hf; [|done].
    by rewrite read_alter_ne.
Qed.

(** ** One turn of the loop *)

Lemma sync_row_prefix self partition rows_sent raw w :
  row_ready self rows_sent →
  _sync_records_row self partition rows_sent raw w
  = (try_except
       (_increment_stream_state self
          (pop_deselected_record_properties raw (_tap_input_catalog self)
             (name self)) partition)
       InvalidStreamSortException
       (logger (LogSortingError (rows_sent + 1) (truthy_ctx partition)
                  InvalidStreamSortException);;
        raise InvalidStreamSortException);;
     mret (rows_sent + 1))
      (World (tap_state w) (S (clock w))
         (out w ++ row_messages self rows_sent raw w) (log w)).
Proof.
  intros ([s Hs] & Hlimit & Hfreq).
  unfold _sync_records_row, _write_record_message, _write_state_message,
    schema, row_messages, record_message, emitted, flush_due.
  rewrite Hs. simpl.
  assert ((match _MAX_RECORDS_LIMIT self with
           | Some limit =>
               if limit <=? rows_sent then raise MaxRecordsLimitException
               else mret ()
           | None => mret ()
           end : M unit) = mret ()) as ->.
  { destruct (_MAX_RECORDS_LIMIT self) as [limit|]; [|done]. simpl in Hlimit.
    by destruct (Z.leb_spec limit rows_sent); [lia|]. }
  destruct (Z.eqb_spec rows_sent 0) as [->|Hne]; simpl.
  - by unfold_M.
  - destruct (Z.eqb_spec (STATE_MSG_FREQUENCY self) 0); [lia|].
    unfold_M. simpl. destruct (_ =? 0); simpl; by rewrite <- ?app_assoc.
Qed.

(** A turn that returns was ready, counted the row, and wrote its messages
    and nothing else; whatever the checkpoint step did to the tree. *)
Lemma sync_row_returned self partition rows_sent raw w n w' :
  _sync_records_row self partition rows_sent raw w = (Returned n, w') →
  row_ready self rows_sent ∧ n = rows_sent + 1
  ∧ out w' = out w ++ row_messages self rows_sent raw w
  ∧ log w' = log w.
Proof.
  intros Hrun.
  assert (row_ready self rows_sent) as Hready.
  { revert Hrun.
    unfold row_ready, _sync_records_row, _write_record_message,
      _write_state_message, schema.
    destruct (_MAX_RECORDS_LIMIT self) as [limit|]; simpl.
    - destruct (Z.leb_spec limit rows_sent); [by unfold_M|].
      destruct (Z.eqb_spec rows_sent 0) as [->|];
        [|destruct (Z.eqb_spec (STATE_MSG_FREQUENCY self) 0)];
        destruct (_schema self); unfold_M; simpl; try done;
        try (destruct (_ =? 0); done); intros _; eauto 6.
    - destruct (Z.eqb_spec rows_sent 0) as [->|];
        [|destruct (Z.eqb_spec (STATE_MSG_FREQUENCY self) 0)];
        destruct (_schema self); unfold_M; simpl; try done;
        try (destruct (_ =? 0); done); intros _; eauto 6. }
  split; [done|]. rewrite sync_row_prefix in Hrun; [|done].
  revert Hrun. unfold mbind at 1, M_bind at 1. unfold try_except.
  match goal with |- context [_increment_stream_state self ?r partition ?w0] =>
    pose proof (_increment_stream_state_frame self r partition w0) as Hf;
    destruct (_increment_stream_state self r partition w0) as [[[]|e] w1]
  end; simpl in Hf.
  - unfold_M. intros [= <- <-]. by destruct Hf as (-> & -> & _).
  - destruct (decide (e = InvalidStreamSortException)); unfold_M; done.
Qed.

(** C8.  A stream whose method is INCREMENTAL or LOG_BASED but which has no
    replication key: the checkpoint step raises ValueError on a non-empty
    row; no bookmark of the tree has changed, no message was written and the
    clock was not read.  In the loop the error is not caught: the first such
    row ends the sync with ValueError. *)
Theorem _increment_stream_state_missing_key (self : Stream) (row : record)
    (partition : option context) (w : world) :
  row ≠ ∅ →
  replication_method self ∈ [REPLICATION_INCREMENTAL; REPLICATION_LOG_BASED] →
  replication_key self = None →
  let r := _increment_stream_state self row partition w in
  r.1 = Raised ValueError
  ∧ (∀ l, read_bookmark (tap_state r.2) l = read_bookmark (tap_state w) l)
  ∧ clock r.2 = clock w ∧ out r.2 = out w ∧ log r.2 = log w
  ∧ ∀ rows_sent rest (raw : record),
      pop_deselected_record_properties raw (_tap_input_catalog self) (name self)
      = row →
      is_Some (_schema self) →
      from_option (λ limit, rows_sent < limit) True (_MAX_RECORDS_LIMIT self) →
      rows_sent = 0 ∨ STATE_MSG_FREQUENCY self ≠ 0 →
      (_sync_records_rows self partition (raw :: rest) rows_sent w).1
      = Raised ValueError.
Proof.
  intros Hrow Hmethod Hkey.
  assert (_increment_stream_state self row partition w
          = (Raised ValueError,
             World (alter_bookmark id (name self, truthy_ctx partition)
                      (tap_state w)) (clock w) (out w) (log w))) as Hstep.
  { unfold _increment_stream_state.
    erewrite bind_returned; [|apply get_stream_or_partition_state_eq].
    rewrite decide_False; [|done]. rewrite bool_decide_true; [|done].
    by rewrite Hkey. }
  assert (∀ w0, (_increment_stream_state self row partition w0).1
                = Raised ValueError) as Hany.
  { intros w0. unfold _increment_stream_state.
    erewrite bind_returned; [|apply get_stream_or_partition_state_eq].
    rewrite decide_False; [|done]. rewrite bool_decide_true; [|done].
    by rewrite Hkey. }
  simpl. rewrite Hstep. simpl. repeat split; try done.
  { intros l. apply read_alter_id. }
  intros rows_sent rest raw Hpop Hschema Hlimit Hfreq. simpl.
  unfold mbind at 1, M_bind at 1.
  rewrite sync_row_prefix; [|done].
  rewrite Hpop. unfold mbind at 1, M_bind at 1, try_except.
  match goal with |- context [_increment_stream_state self row partition ?w0] =>
    specialize (Hany w0);
    destruct (_increment_stream_state self row partition w0) as [o w1]
  end.
  simpl in Hany. subst o. by rewrite decide_False.
Qed.

(** ** The loops *)

Lemma kinds_row_messages self rows_sent raw w :
  kinds (row_messages self rows_sent raw w)
  = (if flush_due self rows_sent then [false] else []) ++ [true].
Proof. unfold kinds, row_messages. by destruct (flush_due self rows_sent). Qed.

Lemma emitted_rows_row_messages self rows_sent raw w :
  emitted_rows (row_messages self rows_sent raw w) = [emitted self raw].
Proof.
  unfold emitted_rows, row_messages. by destruct (flush_due self rows_sent).
Qed.

Lemma emitted_rows_app ms1 ms2 :
  emitted_rows (ms1 ++ ms2) = emitted_rows ms1 ++ emitted_rows ms2.
Proof. apply omap_app. Qed.

Lemma expected_kinds_app self n1 : ∀ rows_sent n2,
  expected_kinds self rows_sent (n1 + n2)
  = expected_kinds self rows_sent n1
    ++ expected_kinds self (rows_sent + Z.of_nat n1) n2.
Proof.
  induction n1 as [|n1 IH]; intros rows_sent n2; simpl.
  - by rewrite Z.add_0_r.
  - rewrite IH. rewrite <- !app_assoc. simpl.
    by replace (rows_sent + 1 + Z.of_nat n1)
      with (rows_sent + Z.pos (Pos.of_succ_nat n1)) by lia.
Qed.

(** The rows of a partition: a run that returns has counted every row and
    written, for each, its record message, after the state message when the
    flush was due; the log is as it was. *)
Lemma sync_rows_returned self partition rows : ∀ rows_sent w n w',
  _sync_records_rows self partition rows rows_sent w = (Returned n, w') →
  n = rows_sent + Z.of_nat (length rows) ∧ log w' = log w
  ∧ ∃ new, out w' = out w ++ new
      ∧ kinds new = expected_kinds self rows_sent (length rows)
      ∧ emitted_rows new = emitted self <$> rows.
Proof.
  induction rows as [|raw rest IH]; intros rows_sent w n w' Hrun.
  - injection Hrun as <- <-. split; [simpl; lia|]. split; [done|].
    exists []. by rewrite app_nil_r.
  - simpl in Hrun. unfold mbind at 1, M_bind at 1 in Hrun.
    destruct (_sync_records_row self partition rows_sent raw w)
      as [[n1|e] w1] eqn:Hrow; [|done].
    apply sync_row_returned in Hrow as (_ & -> & Hout1 & Hlog1).
    apply IH in Hrun as (-> & Hlog & new & Hout & Hkinds & Hrows).
    split; [simpl length; lia|]. split; [congruence|].
    exists (row_messages self rows_sent raw w ++ new).
    rewrite Hout, Hout1, <- app_assoc. split; [done|]. split.
    + unfold kinds in *. rewrite fmap_app. fold (kinds (row_messages self rows_sent raw w)).
      rewrite kinds_row_messages, Hkinds. simpl. by rewrite <- app_assoc.
    + rewrite emitted_rows_app, emitted_rows_row_messages, Hrows. done.
Qed.

(** The partitions: the same, over all their rows. *)
Lemma sync_partitions_returned self ps : ∀ rows_sent w n w',
  _sync_records_partitions self ps rows_sent w = (Returned n, w') →
  n = rows_sent + Z.of_nat (length (all_rows self ps)) ∧ log w' = log w
  ∧ ∃ new, out w' = out w ++ new
      ∧ kinds new = expected_kinds self rows_sent (length (all_rows self ps))
      ∧ emitted_rows new = emitted self <$> all_rows self ps.
Proof.
  induction ps as [|p ps IH]; intros rows_sent w n w' Hrun.
  - injection Hrun as <- <-. split; [simpl; lia|]. split; [done|].
    exists []. by rewrite app_nil_r.
  - simpl in Hrun.
    erewrite bind_returned in Hrun; [|apply get_stream_or_partition_state_eq].
    erewrite bind_returned in Hrun; [|done].
    unfold mbind at 1, M_bind at 1 in Hrun.
    match type of Hrun with context [_sync_records_rows _ _ _ _ ?w0] =>
      destruct (_sync_records_rows self p (get_records self p) rows_sent w0)
        as [[n1|e] w1] eqn:Hrows; [|done] end.
    apply sync_rows_returned in Hrows
      as (-> & Hlog1 & new1 & Hout1 & Hkinds1 & Hrows1).
    erewrite bind_returned in Hrun; [|done].
    apply IH in Hrun as (-> & Hlog & new & Hout & Hkinds & Hrows).
    simpl in Hlog, Hout, Hlog1, Hout1. unfold all_rows in *.
    rewrite fmap_cons, concat_cons, length_app, fmap_app, expected_kinds_app.
    split; [lia|]. split; [congruence|].
    exists (new1 ++ new). rewrite Hout, Hout1, <- app_assoc.
    split; [done|]. split.
    + unfold kinds in *. by rewrite fmap_app, Hkinds1, Hkinds.
    + by rewrite emitted_rows_app, Hrows1, Hrows.
Qed.

(** [_sync_records] goes through the planned partitions, logs the count and
    writes the final state message. *)
Lemma _sync_records_eq self partition w :
  _sync_records self partition w
  = (rows_sent ← _sync_records_partitions self
                   (planned_partitions self partition (tap_state w)) 0;
     logger (LogCompleted (name self) rows_sent);;
     _write_state_message) w.
Proof.
  unfold _sync_records, planned_partitions, partitions.
  destruct (truthy_ctx partition); [done|].
  unfold_M. simpl.
  by destruct (fst <$> default [] (get_state_partitions_list _ _)).
Qed.

Lemma _sync_records_returned self partition w w' :
  _sync_records self partition w = (Returned (), w') →
  ∃ n w1,
    _sync_records_partitions self
      (planned_partitions self partition (tap_state w)) 0 w = (Returned n, w1)
    ∧ w' = World (tap_state w1) (clock w1)
             (out w1 ++ [StateMessage (tap_state w1)])
             (log w1 ++ [LogCompleted (name self) n]).
Proof.
  rewrite _sync_records_eq. unfold mbind at 1, M_bind at 1.
  destruct (_sync_records_partitions _ _ _ _) as [[n|e] w1]; [|done].
  unfold _write_state_message. unfold_M. simpl. intros [= <-]. eauto.
Qed.

(** An exception of the loop leaves [_sync_records] at once: nothing is
    logged or written after it. *)
Lemma _sync_records_raised self partition w e w1 :
  _sync_records_partitions self
    (planned_partitions self partition (tap_state w)) 0 w = (Raised e, w1) →
  _sync_records self partition w = (Raised e, w1).
Proof. intros H. rewrite _sync_records_eq. by erewrite bind_raised. Qed.

(** ** Streams that keep no bookmark *)

Section NoBookmark.

Variable self : Stream.
Hypothesis Hmethod :
  replication_method self ∉ [REPLICATION_INCREMENTAL; REPLICATION_LOG_BASED].
Hypothesis Hschema : is_Some (_schema self).
Hypothesis Hfreq : STATE_MSG_FREQUENCY self ≠ 0.

Lemma sync_row_noop partition rows_sent raw w :
  cap_allows self rows_sent 1 →
  _sync_records_row self partition rows_sent raw w
  = (Returned (rows_sent + 1),
     World (alter_bookmark id (name self, truthy_ctx partition) (tap_state w))
       (S (clock w)) (out w ++ row_messages self rows_sent raw w) (log w)).
Proof.
  intros Hcap. rewrite sync_row_prefix.
  - unfold mbind at 1, M_bind at 1, try_except.
    rewrite _increment_stream_state_noop; [done|by right].
  - split; [done|]. split; [|by right].
    unfold cap_allows in Hcap. destruct (_MAX_RECORDS_LIMIT self); simpl in *; lia.
Qed.

Lemma sync_rows_noop partition rows : ∀ rows_sent w,
  cap_allows self rows_sent (length rows) →
  ∃ n w',
    _sync_records_rows self partition rows rows_sent w = (Returned n, w')
    ∧ ∀ l, read_bookmark (tap_state w') l = read_bookmark (tap_state w) l.
Proof.
  induction rows as [|raw rest IH]; intros rows_sent w Hcap.
  - by exists rows_sent, w.
  - simpl. erewrite bind_returned; last first.
    { apply sync_row_noop. unfold cap_allows in *.
      destruct (_MAX_RECORDS_LIMIT self); simpl in *; lia. }
    edestruct (IH (rows_sent + 1)) as (n & w' & -> & Hread).
    { unfold cap_allows in *.
      destruct (_MAX_RECORDS_LIMIT self); simpl in *; lia. }
    exists n, w'. split; [done|]. intros l. rewrite Hread. simpl.
    apply read_alter_id.
Qed.

Lemma durable_reset_promote b :
  durable (promote_progress_marker (set_progress_marker None b)) = durable b.
Proof. done. Qed.

Lemma sync_partitions_noop ps : ∀ rows_sent w,
  cap_allows self rows_sent (length (all_rows self ps)) →
  ∃ n w',
    _sync_records_partitions self ps rows_sent w = (Returned n, w')
    ∧ ∀ l, durable (read_bookmark (tap_state w') l)
           = durable (read_bookmark (tap_state w) l).
Proof.
  induction ps as [|p ps IH]; intros rows_sent w Hcap.
  - by exists rows_sent, w.
  - unfold all_rows in Hcap. rewrite fmap_cons, concat_cons, length_app in Hcap.
    fold (all_rows self ps) in Hcap. simpl.
    erewrite bind_returned; [|apply get_stream_or_partition_state_eq].
    erewrite bind_returned; [|done].
    match goal with |- context [@mbind _ _ _ _ _ _ ?w0] =>
      destruct (sync_rows_noop p (get_records self p) rows_sent w0)
        as (n1 & w1 & Hrows & Hread1) end.
    { unfold cap_allows in *.
      destruct (_MAX_RECORDS_LIMIT self); simpl in *; lia. }
    erewrite bind_returned; [|apply Hrows].
    erewrite bind_returned; [|done].
    apply sync_rows_returned in Hrows as (-> & _).
    match goal with |- context [_sync_records_partitions _ _ ?r ?w0] =>
      destruct (IH r w0) as (n & w' & Hrun & Hread) end.
    { unfold cap_allows in *.
      destruct (_MAX_RECORDS_LIMIT self); simpl in *; lia. }
    exists n, w'. split; [done|]. intros l. rewrite Hread. simpl.
    set (l0 := (name self, truthy_ctx p)).
    destruct (decide (l0 = l)) as [<-|Hne].
    + rewrite read_alter, Hread1. simpl.
      by rewrite read_alter, read_alter_id.
    + rewrite read_alter_ne, Hread1; [|done]. simpl.
      by rewrite read_alter_ne, read_alter_id.
Qed.

Lemma _sync_records_noop partition w :
  cap_allows self 0
    (length (all_rows self (planned_partitions self partition (tap_state w)))) →
  ∃ w',
    _sync_records self partition w = (Returned (), w')
    ∧ ∀ l, durable (read_bookmark (tap_state w') l)
           = durable (read_bookmark (tap_state w) l).
Proof.
  intros Hcap.
  destruct (sync_partitions_noop _ 0 w Hcap) as (n & w1 & Hrun & Hread).
  rewrite _sync_records_eq. erewrite bind_returned; [|apply Hrun].
  unfold _write_state_message. unfold_M. simpl. eauto.
Qed.

End NoBookmark.

Lemma full_table_not_incremental :
  REPLICATION_FULL_TABLE ∉ [REPLICATION_INCREMENTAL; REPLICATION_LOG_BASED].
Proof.
  unfold REPLICATION_FULL_TABLE, REPLICATION_INCREMENTAL, REPLICATION_LOG_BASED.
  intros H. by repeat (apply elem_of_cons in H as [H|H]; [done|]);
    apply elem_of_nil in H.
Qed.

(** C7.  A FULL_TABLE stream: the checkpoint step returns without changing
    any bookmark, reading the clock or writing anything; and a sync that the
    record cap does not stop returns with the durable bookmark of every
    partition as it was (empty, when it was empty), and has written a record
    message for every row. *)
Theorem full_table_no_bookmark_update (self : Stream) :
  replication_method self = REPLICATION_FULL_TABLE →
  (∀ row partition w,
     let r := _increment_stream_state self row partition w in
     r.1 = Returned ()
     ∧ (∀ l, read_bookmark (tap_state r.2) l = read_bookmark (tap_state w) l)
     ∧ clock r.2 = clock w ∧ out r.2 = out w ∧ log r.2 = log w)
  ∧ ∀ partition w,
      is_Some (_schema self) →
      STATE_MSG_FREQUENCY self ≠ 0 →
      cap_allows self 0
        (length (all_rows self
                   (planned_partitions self partition (tap_state w)))) →
      ∃ w',
        _sync_records self partition w = (Returned (), w')
        ∧ (∀ l, durable (read_bookmark (tap_state w') l)
                = durable (read_bookmark (tap_state w) l))
        ∧ ∃ new, out w' = out w ++ new
            ∧ emitted_rows new
              = emitted self
                <$> all_rows self
                      (planned_partitions self partition (tap_state w)).
Proof.
  intros Hmethod.
  assert (replication_method self
          ∉ [REPLICATION_INCREMENTAL; REPLICATION_LOG_BASED]) as Hnot.
  { rewrite Hmethod. apply full_table_not_incremental. }
  split.
  - intros row partition w. simpl.
    rewrite _increment_stream_state_noop; [|by right]. simpl.
    repeat split; try done. intros l. apply read_alter_id.
  - intros partition w Hschema Hfreq Hcap.
    destruct (_sync_records_noop self Hnot Hschema Hfreq partition w Hcap)
      as (w' & Hrun & Hread).
    exists w'. split; [done|]. split; [done|].
    apply _sync_records_returned in Hrun as (n & w1 & Hrun & ->).
    apply sync_partitions_returned in Hrun as (_ & _ & new & Hout & _ & Hrows).
    exists (new ++ [StateMessage (tap_state w1)]). simpl.
    rewrite Hout, <- app_assoc. split; [done|].
    by rewrite emitted_rows_app, Hrows, app_nil_r.
Qed.

(** ** The cadence of state messages *)

Lemma expected_kinds_3_7 self :
  STATE_MSG_FREQUENCY self = 3 →
  expected_kinds self 0 7
  = [true; false; true; true; true; false; true; true; true].
Proof. intros H. unfold expected_kinds, flush_due. by rewrite H. Qed.

(** C3, as the code has it.  With frequency 3 and 7 rows in one partition, a
    sync that returns has written the messages R S R R R S R R R S: two
    intermediate state messages, written when 1 and 4 rows had been sent
    (before the 2nd and the 5th row), and one final state message after the
    last row.  A FULL_TABLE stream with a schema, which the cap does not
    stop, is such a sync. *)
Theorem state_message_cadence_3_7 (self : Stream) (partition p : option context)
    (w : world) :
  STATE_MSG_FREQUENCY self = 3 →
  planned_partitions self partition (tap_state w) = [p] →
  length (get_records self p) = 7%nat →
  (∀ w', _sync_records self partition w = (Returned (), w') →
     ∃ new,
       out w' = out w ++ new ++ [StateMessage (tap_state w')]
       ∧ kinds new = [true; false; true; true; true; false; true; true; true]
       ∧ flush_points 0 (kinds (new ++ [StateMessage (tap_state w')]))
         = [1; 4; 7])
  ∧ (replication_method self = REPLICATION_FULL_TABLE →
     is_Some (_schema self) → cap_allows self 0 7 →
     ∃ w', _sync_records self partition w = (Returned (), w')).
Proof.
  intros Hfreq Hplan Hlen. split.
  - intros w' Hrun.
    apply _sync_records_returned in Hrun as (n & w1 & Hrun & ->).
    apply sync_partitions_returned in Hrun as (_ & _ & new & Hout & Hkinds & _).
    rewrite Hplan in Hkinds. unfold all_rows in Hkinds. simpl in Hkinds.
    rewrite app_nil_r, Hlen, expected_kinds_3_7 in Hkinds; [|done].
    exists new. simpl. rewrite Hout, <- app_assoc. split; [done|].
    split; [done|]. unfold kinds in *. by rewrite fmap_app, Hkinds.
  - intros Hmethod Hschema Hcap.
    destruct (_sync_records_noop self) with (partition := partition) (w := w)
      as (w' & Hrun & _); eauto.
    + rewrite Hmethod. apply full_table_not_incremental.
    + lia.
    + rewrite Hplan. unfold all_rows. simpl. by rewrite app_nil_r, Hlen.
Qed.

(** ** The record cap *)

Lemma sync_rows_app self partition rows1 rows2 : ∀ rows_sent w,
  _sync_records_rows self partition (rows1 ++ rows2) rows_sent w
  = (n ← _sync_records_rows self partition rows1 rows_sent;
     _sync_records_rows self partition rows2 n) w.
Proof.
  induction rows1 as [|raw rows1 IH]; intros rows_sent w; [done|].
  simpl. unfold mbind, M_bind.
  destruct (_sync_records_row self partition rows_sent raw w) as [[n|e] w1];
    [|done].
  by rewrite IH.
Qed.

Lemma sync_partitions_app self ps1 ps2 : ∀ rows_sent w,
  _sync_records_partitions self (ps1 ++ ps2) rows_sent w
  = (n ← _sync_records_partitions self ps1 rows_sent;
     _sync_records_partitions self ps2 n) w.
Proof.
  induction ps1 as [|p ps1 IH]; intros rows_sent w; [done|].
  simpl. unfold_M. simpl.
  destruct (_sync_records_rows self p (get_records self p) rows_sent _)
    as [[n|e] w1]; [|done].
  by rewrite IH.
Qed.

Lemma sync_row_cap self partition rows_sent raw w limit :
  _MAX_RECORDS_LIMIT self = Some limit → limit ≤ rows_sent →
  _sync_records_row self partition rows_sent raw w
  = (Raised MaxRecordsLimitException, w).
Proof.
  intros Hlimit Hle. unfold _sync_records_row. rewrite Hlimit.
  destruct (Z.leb_spec limit rows_sent); [done|lia].
Qed.

(** C4, as the code has it.  When the cap is reached at a row, after some
    partitions were finalized and some rows of the current partition were
    sent, [_sync_records] raises the limit exception and ends in the world
    left by the last row sent: nothing is written after it, and so no final
    state message. *)
Theorem record_cap_aborts_sync (self : Stream) (partition : option context)
    (w : world) (limit : Z)
    (finalized : list (option context)) (p : option context)
    (pending : list (option context))
    (sent : list record) (raw : record) (unread : list record)
    (n1 n2 : Z) (w1 w2 : world) :
  _MAX_RECORDS_LIMIT self = Some limit →
  planned_partitions self partition (tap_state w) = finalized ++ p :: pending →
  _sync_records_partitions self finalized 0 w = (Returned n1, w1) →
  get_records self p = sent ++ raw :: unread →
  _sync_records_rows self p sent n1 (partition_opened self p w1)
  = (Returned n2, w2) →
  limit ≤ n2 →
  _sync_records self partition w = (Raised MaxRecordsLimitException, w2).
Proof.
  intros Hlimit Hplan Hdone Hrows Hsent Hle.
  apply _sync_records_raised. rewrite Hplan, sync_partitions_app.
  erewrite bind_returned; [|done]. simpl.
  erewrite bind_returned; [|apply get_stream_or_partition_state_eq].
  erewrite bind_returned; [|done].
  apply bind_raised. rewrite Hrows, sync_rows_app.
  erewrite bind_returned; [|apply Hsent]. simpl.
  apply bind_raised. by eapply sync_row_cap.
Qed.

(** ** The checkpoint step of a stream that keeps a bookmark *)

Lemma _increment_stream_state_eq self row partition w rk ts :
  row ≠ ∅ →
  replication_method self ∈ [REPLICATION_INCREMENTAL; REPLICATION_LOG_BASED] →
  replication_key self = Some rk →
  is_timestamp_replication_key self = Returned ts →
  _increment_stream_state self row partition w
  = increment_state (name self, truthy_ctx partition) rk
      (if ts then Some (VTime (now (clock w))) else None) row (is_sorted self)
      (World (alter_bookmark id (name self, truthy_ctx partition) (tap_state w))
         (if ts then S (clock w) else clock w) (out w) (log w)).
Proof.
  intros Hrow Hmethod Hkey Hts. unfold _increment_stream_state.
  erewrite bind_returned; [|apply get_stream_or_partition_state_eq].
  rewrite decide_False, bool_decide_true, Hkey by done.
  unfold get_replication_key_signpost. rewrite Hts.
  by destruct ts.
Qed.

Lemma lookup_Some_nonempty (row : record) rk v : row !! rk = Some v → row ≠ ∅.
Proof. intros H ->. by rewrite lookup_empty in H. Qed.

(** Step 4 of section 4.4: a candidate above the ceiling changes nothing. *)
Lemma increment_state_over state rk ceiling row sorted w v :
  row !! rk = Some v → value_compare v ceiling = Some Gt →
  increment_state state rk (Some ceiling) row sorted w = (Returned (), w).
Proof.
  intros Hv Hgt. unfold increment_state, value_gt. rewrite Hv, Hgt. done.
Qed.

(** Whatever the candidate, the tentative maximum a step leaves is the one
    it found or a candidate that is not above the ceiling. *)
Lemma increment_state_capped state rk ceiling row sorted w :
  let w' := (increment_state state rk (Some ceiling) row sorted w).2 in
  bm_progress_markers (read_bookmark (tap_state w') state)
  = bm_progress_markers (read_bookmark (tap_state w) state)
  ∨ ∃ v, bm_progress_markers (read_bookmark (tap_state w') state)
         = Some (ProgressMarker rk v)
         ∧ row !! rk = Some v
         ∧ (value_compare v ceiling = Some Lt
            ∨ value_compare v ceiling = Some Eq).
Proof.
  unfold increment_state, value_gt, value_lt. unfold_M.
  destruct (row !! rk) as [v|]; [|by left].
  destruct (value_compare v ceiling) as [[]|] eqn:Hc; simpl; try by left.
  - repeat case_match; simplify_eq/=; try (by left);
      right; exists v; rewrite read_alter; eauto.
  - repeat case_match; simplify_eq/=; try (by left);
      right; exists v; rewrite read_alter; eauto.
Qed.

(** Step 5, without a ceiling: the first candidate of a pass, or one that is
    not below the tentative maximum, becomes the tentative maximum. *)
Lemma increment_state_advance state rk row sorted w v :
  row !! rk = Some v →
  from_option (λ m, value_compare v m = Some Eq ∨ value_compare v m = Some Gt)
    True (marker_value (tap_state w) state) →
  increment_state state rk None row sorted w
  = (Returned (),
     World (alter_bookmark (set_progress_marker (Some (ProgressMarker rk v)))
              state (tap_state w)) (clock w) (out w) (log w)).
Proof.
  intros Hv Hm. unfold increment_state, value_lt, marker_value in *.
  rewrite Hv. unfold_M. simpl.
  destruct (bm_progress_markers (read_bookmark (tap_state w) state)) as [m|];
    simpl in *; [|done].
  by destruct Hm as [-> | ->].
Qed.

(** Step 5, on a sorted stream: a candidate below the tentative maximum is an
    ordering error, and the bookmark is left as it was. *)
Lemma increment_state_out_of_order state rk row w v m :
  row !! rk = Some v →
  marker_value (tap_state w) state = Some m →
  value_compare v m = Some Lt →
  increment_state state rk None row true w
  = (Raised InvalidStreamSortException, w).
Proof.
  intros Hv Hm Hlt. unfold increment_state, value_lt, marker_value in *.
  rewrite Hv. unfold_M. simpl.
  destruct (bm_progress_markers (read_bookmark (tap_state w) state)) as [m'|];
    simplify_eq/=.
  by rewrite Hlt.
Qed.

(** X22.  An INCREMENTAL or LOG_BASED stream with a timestamp replication
    key: a row whose value is above the ceiling read at that row is written
    as a record message, and the turn returns with every bookmark of the
    tree, progress marker included, as it was.  And whatever the row, the
    tentative maximum that the checkpoint leaves, the only value a later
    finalize can promote, is the one it found or is not above the ceiling. *)
Theorem signpost_caps_bookmark (self : Stream) (partition : option context)
    (rows_sent : Z) (raw : record) (w : world) (rk : string) (v : value) :
  row_ready self rows_sent →
  replication_method self ∈ [REPLICATION_INCREMENTAL; REPLICATION_LOG_BASED] →
  replication_key self = Some rk →
  is_timestamp_replication_key self = Returned true →
  pop_deselected_record_properties raw (_tap_input_catalog self) (name self)
    !! rk = Some v →
  value_compare v (VTime (now (S (clock w)))) = Some Gt →
  let r := _sync_records_row self partition rows_sent raw w in
  r.1 = Returned (rows_sent + 1)
  ∧ out r.2 = out w ++ row_messages self rows_sent raw w
  ∧ emitted_rows (row_messages self rows_sent raw w) = [emitted self raw]
  ∧ (∀ l, read_bookmark (tap_state r.2) l = read_bookmark (tap_state w) l)
  ∧ ∀ state ceiling row sorted w0,
      let w0' := (increment_state state rk (Some ceiling) row sorted w0).2 in
      bm_progress_markers (read_bookmark (tap_state w0') state)
      = bm_progress_markers (read_bookmark (tap_state w0) state)
      ∨ ∃ v0, bm_progress_markers (read_bookmark (tap_state w0') state)
              = Some (ProgressMarker rk v0)
              ∧ row !! rk = Some v0
              ∧ (value_compare v0 ceiling = Some Lt
                 ∨ value_compare v0 ceiling = Some Eq).
Proof.
  intros Hready Hmethod Hkey Hts Hv Hgt.
  assert (_sync_records_row self partition rows_sent raw w
          = (Returned (rows_sent + 1),
             World (alter_bookmark id (name self, truthy_ctx partition)
                      (tap_state w))
               (S (S (clock w))) (out w ++ row_messages self rows_sent raw w)
               (log w))) as ->.
  { rewrite sync_row_prefix by done.
    unfold mbind at 1, M_bind at 1, try_except.
    erewrite _increment_stream_state_eq; eauto using lookup_Some_nonempty.
    simpl. by rewrite (increment_state_over _ _ _ _ _ _ v Hv Hgt). }
  simpl. split; [done|]. split; [done|].
  split; [apply emitted_rows_row_messages|].
  split; [intros l; apply read_alter_id|].
  intros. apply increment_state_capped.
Qed.

(** ** Sorted streams *)

Section SortedStream.

Variable self : Stream.
Variable rk : string.
Variable partition : option context.
Hypothesis Hsorted : is_sorted self = true.
Hypothesis Hmethod :
  replication_method self ∈ [REPLICATION_INCREMENTAL; REPLICATION_LOG_BASED].
Hypothesis Hkey : replication_key self = Some rk.
Hypothesis Hts : is_timestamp_replication_key self = Returned false.
Hypothesis Hfreq : STATE_MSG_FREQUENCY self ≠ 0.

Lemma sorted_row_ready rows_sent :
  cap_allows self rows_sent 1 → row_ready self rows_sent.
Proof.
  intros Hcap. split; [|split; [|by right]].
  - revert Hts. unfold is_timestamp_replication_key, schema. rewrite Hkey.
    by destruct (_schema self).
  - unfold cap_allows in Hcap.
    destruct (_MAX_RECORDS_LIMIT self); simpl in *; lia.
Qed.

Lemma cap_allows_le rows_sent n rows_sent' n' :
  cap_allows self rows_sent n →
  rows_sent' + Z.of_nat n' ≤ rows_sent + Z.of_nat n →
  cap_allows self rows_sent' n'.
Proof.
  unfold cap_allows. destruct (_MAX_RECORDS_LIMIT self); simpl; [lia|done].
Qed.

(** A row whose key is not below the tentative maximum: the turn returns and
    the key is the new tentative maximum. *)
Lemma sync_row_in_order rows_sent raw w v m :
  cap_allows self rows_sent 1 →
  key_values self rk [raw] = [Some (VInt v)] →
  marker_value (tap_state w) (name self, truthy_ctx partition) = VInt <$> m →
  from_option (λ u, u ≤ v) True m →
  ∃ w',
    _sync_records_row self partition rows_sent raw w
    = (Returned (rows_sent + 1), w')
    ∧ marker_value (tap_state w') (name self, truthy_ctx partition) = Some (VInt v)
    ∧ log w' = log w.
Proof.
  intros Hcap [= Hv] Hm Hle.
  rewrite sync_row_prefix by by apply sorted_row_ready.
  unfold mbind at 1, M_bind at 1, try_except.
  erewrite _increment_stream_state_eq; eauto using lookup_Some_nonempty.
  rewrite increment_state_advance with (v := VInt v); [|done|].
  - eexists. split; [done|]. simpl. split; [|done].
    unfold marker_value. by rewrite read_alter.
  - simpl. unfold marker_value in *. rewrite read_alter_id.
    rewrite Hm. destruct m as [u|]; simpl in *; [|done].
    destruct (Z.compare_spec v u); auto. lia.
Qed.

(** A row whose key is below the tentative maximum: the ordering error is
    logged with the ordinal of the row and the partition, and raised again;
    the record message of the row has been written. *)
Lemma sync_row_out_of_order rows_sent raw w v u :
  cap_allows self rows_sent 1 →
  key_values self rk [raw] = [Some (VInt v)] →
  marker_value (tap_state w) (name self, truthy_ctx partition) = Some (VInt u) →
  v < u →
  _sync_records_row self partition rows_sent raw w
  = (Raised InvalidStreamSortException,
     World (alter_bookmark id (name self, truthy_ctx partition) (tap_state w)) (S (clock w))
       (out w ++ row_messages self rows_sent raw w)
       (log w ++ [LogSortingError (rows_sent + 1) (truthy_ctx partition)
                    InvalidStreamSortException])).
Proof.
  intros Hcap [= Hv] Hm Hlt.
  rewrite sync_row_prefix by by apply sorted_row_ready.
  unfold mbind at 1, M_bind at 1, try_except.
  erewrite _increment_stream_state_eq; eauto using lookup_Some_nonempty.
  rewrite Hsorted.
  rewrite increment_state_out_of_order with (v := VInt v) (m := VInt u);
    [done|done| |].
  - simpl. unfold marker_value in *. by rewrite read_alter_id.
  - simpl. by apply f_equal, Z.compare_lt_iff.
Qed.

Lemma sync_rows_in_order vs : ∀ rows rows_sent w m,
  key_values self rk rows = Some ∘ VInt <$> vs →
  ascending m vs →
  cap_allows self rows_sent (length rows) →
  marker_value (tap_state w) (name self, truthy_ctx partition) = VInt <$> m →
  ∃ w',
    _sync_records_rows self partition rows rows_sent w
    = (Returned (rows_sent + Z.of_nat (length rows)), w')
    ∧ marker_value (tap_state w') (name self, truthy_ctx partition) = VInt <$> last_value m vs
    ∧ log w' = log w.
Proof.
  induction vs as [|v vs IH]; intros rows rows_sent w m Hvs Hasc Hcap Hm.
  - destruct rows; [|done]. exists w. simpl. by rewrite Z.add_0_r.
  - destruct rows as [|raw rows]; [done|]. injection Hvs as Hv Hvs.
    destruct Hasc as [Hle Hasc].
    destruct (sync_row_in_order rows_sent raw w v m)
      as (w1 & Hrow & Hm1 & Hlog1); try done.
    { eapply cap_allows_le; [done|]. simpl length. lia. }
    { unfold key_values. simpl. by rewrite Hv. }
    destruct (IH rows (rows_sent + 1) w1 (Some v))
      as (w' & Hrows & Hm' & Hlog'); try done.
    { eapply cap_allows_le; [done|]. simpl length. lia. }
    exists w'. simpl _sync_records_rows.
    erewrite bind_returned by done. rewrite Hrows.
    split; [f_equal; f_equal; simpl length; lia|]. split; [done|congruence].
Qed.

Lemma sync_rows_out_of_order vs good bad unread rows_sent w m v u :
  key_values self rk good = Some ∘ VInt <$> vs →
  key_values self rk [bad] = [Some (VInt v)] →
  ascending m vs →
  last_value m vs = Some u →
  v < u →
  cap_allows self rows_sent (length good + 1) →
  marker_value (tap_state w) (name self, truthy_ctx partition) = VInt <$> m →
  ∃ w',
    _sync_records_rows self partition (good ++ bad :: unread) rows_sent w
    = (Raised InvalidStreamSortException, w')
    ∧ log w'
      = log w ++ [LogSortingError (rows_sent + Z.of_nat (length good) + 1)
                    (truthy_ctx partition) InvalidStreamSortException]
    ∧ ∃ new, out w' = out w ++ new
        ∧ emitted_rows new = emitted self <$> (good ++ [bad]).
Proof.
  intros Hvs Hv Hasc Hlast Hlt Hcap Hm.
  destruct (sync_rows_in_order vs good rows_sent w m)
    as (w1 & Hgood & Hm1 & Hlog1); try done.
  { eapply cap_allows_le; [done|]. lia. }
  rewrite sync_rows_app. erewrite bind_returned by done.
  simpl _sync_records_rows. erewrite bind_raised; last first.
  { apply sync_row_out_of_order with (v := v) (u := u); try done.
    - eapply cap_allows_le; [done|]. lia.
    - by rewrite Hm1, Hlast. }
  eexists. split; [done|]. simpl. rewrite Hlog1. split; [done|].
  apply sync_rows_returned in Hgood as (_ & _ & new & Hout & _ & Hrows).
  exists (new ++ row_messages self (rows_sent + Z.of_nat (length good)) bad w1).
  rewrite Hout, <- app_assoc. split; [done|].
  by rewrite emitted_rows_app, emitted_rows_row_messages, fmap_app, Hrows.
Qed.

End SortedStream.

(** C6.  A sorted INCREMENTAL stream with a key that is not timestamp-typed,
    one partition, three rows.  Key values 1, 2, 3: the sync returns.  Key
    values 1, 3, 2: the sync raises the ordering error; the one entry logged
    carries the ordinal 3 and the partition context; the error is raised
    again, so that nothing is written after the record message of the third
    row. *)
Theorem sorted_stream_ordering (self : Stream) (partition p : option context)
    (w : world) (rk : string) :
  is_sorted self = true →
  replication_method self = REPLICATION_INCREMENTAL →
  replication_key self = Some rk →
  is_timestamp_replication_key self = Returned false →
  STATE_MSG_FREQUENCY self ≠ 0 →
  cap_allows self 0 3 →
  planned_partitions self partition (tap_state w) = [p] →
  (key_values self rk (get_records self p)
   = [Some (VInt 1); Some (VInt 2); Some (VInt 3)] →
   ∃ w', _sync_records self partition w = (Returned (), w'))
  ∧ (key_values self rk (get_records self p)
     = [Some (VInt 1); Some (VInt 3); Some (VInt 2)] →
     ∃ w',
       _sync_records self partition w = (Raised InvalidStreamSortException, w')
       ∧ log w'
         = log w ++ [LogSortingError 3 (truthy_ctx p)
                       InvalidStreamSortException]
       ∧ ∃ new, out w' = out w ++ new
           ∧ emitted_rows new = emitted self <$> get_records self p).
Proof.
  intros Hsorted Hmethod Hkey Hts Hfreq Hcap Hplan.
  assert (replication_method self
          ∈ [REPLICATION_INCREMENTAL; REPLICATION_LOG_BASED]) as Hin.
  { rewrite Hmethod. apply elem_of_cons. by left. }
  assert (marker_value (tap_state (partition_opened self p w))
            (name self, truthy_ctx p) = VInt <$> None) as Hopen.
  { unfold marker_value, partition_opened. simpl. by rewrite read_alter. }
  split; intros Hvs.
  - destruct (sync_rows_in_order self rk p Hin Hkey Hts Hfreq
                [1; 2; 3] (get_records self p) 0 (partition_opened self p w) None)
      as (w1 & Hrows & _); try done.
    { apply (f_equal length) in Hvs. unfold key_values in Hvs.
      rewrite length_fmap in Hvs. by rewrite Hvs. }
    rewrite _sync_records_eq, Hplan. simpl _sync_records_partitions.
    unfold _write_state_message. unfold_M. simpl.
    unfold partition_opened in Hrows. rewrite Hrows. eauto.
  - assert (∃ r1 r2 r3, get_records self p = [r1; r2] ++ r3 :: []
              ∧ key_values self rk [r1; r2] = Some ∘ VInt <$> [1; 3]
              ∧ key_values self rk [r3] = [Some (VInt 2)])
      as (r1 & r2 & r3 & Hrows & Hgood & Hbad).
    { destruct (get_records self p) as [|r1 [|r2 [|r3 [|]]]]; try done.
      injection Hvs as H1 H2 H3. exists r1, r2, r3.
      unfold key_values. simpl. by rewrite H1, H2, H3. }
    destruct (sync_rows_out_of_order self rk p Hsorted Hin Hkey Hts Hfreq
                [1; 3] [r1; r2] r3 [] 0 (partition_opened self p w) None 2 3)
      as (w' & Hrun & Hlog & new & Hout & Hnew); try done.
    exists w'. split.
    + apply _sync_records_raised. rewrite Hplan. simpl _sync_records_partitions.
      erewrite bind_returned; [|apply get_stream_or_partition_state_eq].
      erewrite bind_returned; [|done].
      apply bind_raised. by rewrite Hrows.
    + split; [done|]. exists new. split; [done|]. by rewrite Hrows.
Qed.

(** ** The signpost *)

(** For a timestamp key every call reads the clock. *)
Lemma get_replication_key_signpost_reads_clock self partition w :
  is_timestamp_replication_key self = Returned true →
  get_replication_key_signpost self partition w
  = (Returned (Some (VTime (now (clock w)))),
     World (tap_state w) (S (clock w)) (out w) (log w)).
Proof. intros H. unfold get_replication_key_signpost. by rewrite H. Qed.

(** Without a timestamp key there is no ceiling. *)
Lemma get_replication_key_signpost_none self partition w :
  is_timestamp_replication_key self = Returned false →
  get_replication_key_signpost self partition w = (Returned None, w).
Proof. intros H. unfold get_replication_key_signpost. by rewrite H. Qed.

(** ** Any outcome of a turn of the loop *)

(** Whatever it returns or raises, the checkpoint step leaves the durable
    part of every bookmark as it was. *)
Lemma _increment_stream_state_durable self row partition w l :
  durable (read_bookmark
             (tap_state (_increment_stream_state self row partition w).2) l)
  = durable (read_bookmark (tap_state w) l).
Proof.
  unfold _increment_stream_state.
  erewrite bind_returned; [|apply get_stream_or_partition_state_eq].
  destruct (decide (row = ∅)); simpl; [by rewrite read_alter_id|].
  destruct (bool_decide _); simpl; [|by rewrite read_alter_id].
  destruct (replication_key self) as [rk|]; simpl; [|by rewrite read_alter_id].
  unfold get_replication_key_signpost.
  destruct (is_timestamp_replication_key self) as [[]|e]; unfold_M; simpl;
    try (by rewrite read_alter_id);
    match goal with |- context [increment_state ?a ?b ?c ?d ?e ?w0] =>
      pose proof (increment_state_frame a b c d e w0) as (_ & _ & _ & Hf);
      pose proof (increment_state_durable a b c d e w0) as [Hk Hv];
      destruct (increment_state a b c d e w0) as [o w1] end;
    simpl in *;
    (destruct (decide (l = (name self, truthy_ctx partition))) as [->|Hne];
     [unfold durable; rewrite Hk, Hv, read_alter_id
     |rewrite Hf, read_alter_id by done]); done.
Qed.

(** The exceptions of the checkpoint step. *)
Lemma _increment_stream_state_raises self row partition w e :
  (_increment_stream_state self row partition w).1 = Raised e →
  e ∈ [ValueError; KeyError; TypeError; InvalidStreamSortException].
Proof.
  unfold _increment_stream_state, get_replication_key_signpost,
    get_stream_or_partition_state, get_writeable_state_dict,
    is_timestamp_replication_key, schema, increment_state, value_gt, value_lt.
  unfold_M. simpl.
  repeat case_match; simplify_eq/=; intros; simplify_eq;
    repeat (first [apply list_elem_of_here | apply list_elem_of_further]).
Qed.

Lemma cap_check_passes self rows_sent :
  from_option (λ limit, rows_sent < limit) True (_MAX_RECORDS_LIMIT self) →
  (match _MAX_RECORDS_LIMIT self with
   | Some limit =>
       if limit <=? rows_sent then raise MaxRecordsLimitException
       else mret ()
   | None => mret ()
   end : M unit) = mret ().
Proof.
  intros Hlimit. destruct (_MAX_RECORDS_LIMIT self) as [limit|]; [|done].
  simpl in Hlimit. by destruct (Z.leb_spec limit rows_sent); [lia|].
Qed.

(** The four ways a turn can go: the cap is reached; the frequency is zero
    when the flush is looked at; the stream has no schema; or the turn gets
    to the checkpoint step with the record message written. *)
Lemma sync_row_cases self partition rows_sent raw w :
  (from_option (λ limit, limit ≤ rows_sent) False (_MAX_RECORDS_LIMIT self)
   ∧ _sync_records_row self partition rows_sent raw w
     = (Raised MaxRecordsLimitException, w))
  ∨ (rows_sent ≠ 0 ∧ STATE_MSG_FREQUENCY self = 0
     ∧ _sync_records_row self partition rows_sent raw w
       = (Raised ZeroDivisionError, w))
  ∨ (_schema self = None
     ∧ _sync_records_row self partition rows_sent raw w
       = (Raised ValueError,
          World (tap_state w) (clock w)
            (out w ++ if flush_due self rows_sent
                      then [StateMessage (tap_state w)] else [])
            (log w)))
  ∨ row_ready self rows_sent.
Proof.
  assert (from_option (λ limit, limit ≤ rows_sent) False (_MAX_RECORDS_LIMIT self)
          ∨ from_option (λ limit, rows_sent < limit) True
              (_MAX_RECORDS_LIMIT self)) as [Hhit|Hok].
  { destruct (_MAX_RECORDS_LIMIT self); simpl; [lia|by right]. }
  { left. split; [done|].
    destruct (_MAX_RECORDS_LIMIT self) as [limit|] eqn:Hlimit; [|done].
    by eapply sync_row_cap. }
  right.
  destruct (decide (rows_sent = 0)) as [Hrs|Hrs];
    [|destruct (decide (STATE_MSG_FREQUENCY self = 0)) as [Hf|Hf]].
  - destruct (_schema self) as [s|] eqn:Hs.
    { right. right. split; [by eexists|]. split; [done|by left]. }
    right. left. split; [done|].
    unfold _sync_records_row. rewrite cap_check_passes by done.
    unfold _write_record_message, schema, flush_due. rewrite Hs.
    subst rows_sent. unfold_M. destruct w. simpl. by rewrite app_nil_r.
  - left. split; [done|]. split; [done|].
    unfold _sync_records_row. rewrite cap_check_passes by done.
    destruct (Z.eqb_spec rows_sent 0); [done|]. rewrite Hf. by unfold_M.
  - destruct (_schema self) as [s|] eqn:Hs.
    { right. right. split; [by eexists|]. split; [done|by right]. }
    right. left. split; [done|].
    unfold _sync_records_row. rewrite cap_check_passes by done.
    unfold _write_record_message, _write_state_message, schema, flush_due.
    rewrite Hs.
    destruct (Z.eqb_spec rows_sent 0); [done|].
    destruct (Z.eqb_spec (STATE_MSG_FREQUENCY self) 0); [done|].
    unfold_M. destruct w. simpl. destruct (_ =? 0); simpl;
      by rewrite ?app_nil_r.
Qed.
(** A turn that gets to the checkpoint step ends as the step does, with
    the ordering error logged before it is raised again. *)
Lemma sync_row_ready_eq self partition rows_sent raw w :
  row_ready self rows_sent →
  let i :=
    _increment_stream_state self
      (pop_deselected_record_properties raw (_tap_input_catalog self)
         (name self)) partition
      (World (tap_state w) (S (clock w))
         (out w ++ row_messages self rows_sent raw w) (log w)) in
  _sync_records_row self partition rows_sent raw w
  = match i.1 with
    | Returned _ => (Returned (rows_sent + 1), i.2)
    | Raised e =>
        if decide (e = InvalidStreamSortException)
        then (Raised InvalidStreamSortException,
              World (tap_state i.2) (clock i.2) (out i.2)
                (log i.2 ++ [LogSortingError (rows_sent + 1)
                               (truthy_ctx partition)
                               InvalidStreamSortException]))
        else (Raised e, i.2)
    end.
Proof.
  intros Hready. rewrite sync_row_prefix by done.
  unfold mbind at 1, M_bind at 1, try_except. simpl.
  destruct (_increment_stream_state _ _ _ _) as [[[]|e] w3]; simpl; [done|].
  by destruct (decide (e = InvalidStreamSortException)).
Qed.

(** Whatever its outcome, a turn leaves the durable part of every bookmark
    as it was, and every bookmark other than that of its partition. *)
Lemma sync_row_durable self partition rows_sent raw w l :
  durable (read_bookmark
             (tap_state (_sync_records_row self partition rows_sent raw w).2) l)
  = durable (read_bookmark (tap_state w) l).
Proof.
  destruct (sync_row_cases self partition rows_sent raw w)
    as [(_ & ->)|[(_ & _ & ->)|[(_ & ->)|Hready]]]; try done.
  rewrite sync_row_ready_eq by done. simpl.
  match goal with |- context [_increment_stream_state self ?r partition ?w0] =>
    pose proof (_increment_stream_state_durable self r partition w0 l) as Hd;
    destruct (_increment_stream_state self r partition w0) as [[[]|e] w3] end;
    simpl in *; [done|].
  by destruct (decide (e = InvalidStreamSortException)).
Qed.

Lemma sync_row_frame self partition rows_sent raw w l :
  l ≠ (name self, truthy_ctx partition) →
  read_bookmark
    (tap_state (_sync_records_row self partition rows_sent raw w).2) l
  = read_bookmark (tap_state w) l.
Proof.
  intros Hl.
  destruct (sync_row_cases self partition rows_sent raw w)
    as [(_ & ->)|[(_ & _ & ->)|[(_ & ->)|Hready]]]; try done.
  rewrite sync_row_ready_eq by done. simpl.
  match goal with |- context [_increment_stream_state self ?r partition ?w0] =>
    pose proof (_increment_stream_state_frame self r partition w0)
      as (_ & _ & Hf);
    destruct (_increment_stream_state self r partition w0) as [[[]|e] w3] end;
    simpl in *; [by apply Hf|].
  destruct (decide (e = InvalidStreamSortException)); by apply Hf.
Qed.

(** What a turn writes: nothing that carries a row when it stops before the
    record message; the record message of its row, the cap not being
    reached, otherwise.  A turn that returns has counted its row. *)
Lemma sync_row_out self partition rows_sent raw w :
  let r := _sync_records_row self partition rows_sent raw w in
  (∀ n, r.1 = Returned n → n = rows_sent + 1)
  ∧ ∃ new, out r.2 = out w ++ new
      ∧ ((emitted_rows new = [] ∧ ∀ n, r.1 ≠ Returned n)
         ∨ (emitted_rows new = [emitted self raw]
            ∧ from_option (λ limit, rows_sent < limit) True
                (_MAX_RECORDS_LIMIT self))).
Proof.
  destruct (sync_row_cases self partition rows_sent raw w)
    as [(_ & ->)|[(_ & _ & ->)|[(_ & ->)|Hready]]]; simpl.
  - split; [done|]. exists []. rewrite app_nil_r. split; [done|]. by left.
  - split; [done|]. exists []. rewrite app_nil_r. split; [done|]. by left.
  - split; [done|]. eexists. split; [done|]. left.
    by destruct (flush_due self rows_sent).
  - rewrite sync_row_ready_eq by done. simpl.
    match goal with |- context [_increment_stream_state self ?r partition ?w0] =>
      pose proof (_increment_stream_state_frame self r partition w0)
        as (Ho & _ & _);
      destruct (_increment_stream_state self r partition w0) as [[[]|e] w3] end;
      simpl in *.
    + split; [by intros n [= <-]|].
      exists (row_messages self rows_sent raw w). split; [done|]. right.
      split; [apply emitted_rows_row_messages|apply Hready].
    + split; [by destruct (decide (e = InvalidStreamSortException))|].
      exists (row_messages self rows_sent raw w).
      split; [by destruct (decide (e = InvalidStreamSortException))|]. right.
      split; [apply emitted_rows_row_messages|apply Hready].
Qed.

(** The log of a turn: one entry when the ordering error is raised, with the
    ordinal of the row and the partition; nothing otherwise. *)
Lemma sync_row_log self partition rows_sent raw w :
  let r := _sync_records_row self partition rows_sent raw w in
  match r.1 with
  | Raised InvalidStreamSortException =>
      log r.2 = log w ++ [LogSortingError (rows_sent + 1)
                            (truthy_ctx partition)
                            InvalidStreamSortException]
  | _ => log r.2 = log w
  end.
Proof.
  destruct (sync_row_cases self partition rows_sent raw w)
    as [(_ & ->)|[(_ & _ & ->)|[(_ & ->)|Hready]]]; simpl; try done.
  rewrite sync_row_ready_eq by done. simpl.
  match goal with |- context [_increment_stream_state self ?r partition ?w0] =>
    pose proof (_increment_stream_state_frame self r partition w0)
      as (_ & Hl & _);
    destruct (_increment_stream_state self r partition w0) as [[[]|e] w3] end;
    simpl in *; [done|].
  destruct (decide (e = InvalidStreamSortException)) as [->|Hne]; simpl.
  - by rewrite Hl.
  - by destruct e.
Qed.

(** The limit exception comes from the cap alone, and before anything is
    done for the row. *)
Lemma sync_row_max self partition rows_sent raw w :
  let r := _sync_records_row self partition rows_sent raw w in
  r.1 = Raised MaxRecordsLimitException →
  from_option (λ limit, limit ≤ rows_sent) False (_MAX_RECORDS_LIMIT self)
  ∧ r.2 = w.
Proof.
  destruct (sync_row_cases self partition rows_sent raw w)
    as [(Hcap & ->)|[(_ & _ & ->)|[(_ & ->)|Hready]]]; simpl; try done.
  rewrite sync_row_ready_eq by done. simpl.
  match goal with |- context [_increment_stream_state self ?r partition ?w0] =>
    pose proof (_increment_stream_state_raises self r partition w0) as Hr;
    destruct (_increment_stream_state self r partition w0) as [[[]|e] w3] end;
    simpl in *; [done|].
  specialize (Hr e eq_refl).
  destruct (decide (e = InvalidStreamSortException)); simpl; [done|].
  intros [= ->]. exfalso.
  repeat (apply elem_of_cons in Hr as [Hr|Hr]; [done|]).
  by apply elem_of_nil in Hr.
Qed.

(** ** Any outcome of the loops *)

(** A relation between worlds that every turn respects holds between the
    start and the end of the rows of a partition, however they end. *)
Lemma sync_rows_lift self partition (R : world → world → Prop) :
  (∀ w, R w w) →
  (∀ w1 w2 w3, R w1 w2 → R w2 w3 → R w1 w3) →
  (∀ rows_sent raw w,
     R w (_sync_records_row self partition rows_sent raw w).2) →
  ∀ rows rows_sent w,
    R w (_sync_records_rows self partition rows rows_sent w).2.
Proof.
  intros Hrefl Htrans Hrow. induction rows as [|raw rest IH];
    intros rows_sent w; simpl; [done|].
  unfold mbind, M_bind. specialize (Hrow rows_sent raw w).
  destruct (_sync_records_row self partition rows_sent raw w) as [[n|e] w1];
    simpl in *; [|done].
  eapply Htrans; [done|apply IH].
Qed.

Lemma sync_rows_durable self partition rows rows_sent w l :
  durable (read_bookmark
             (tap_state
                (_sync_records_rows self partition rows rows_sent w).2) l)
  = durable (read_bookmark (tap_state w) l).
Proof.
  revert l.
  apply (sync_rows_lift self partition
           (λ w w', ∀ l, durable (read_bookmark (tap_state w') l)
                         = durable (read_bookmark (tap_state w) l))).
  - done.
  - intros w1 w2 w3 H12 H23 l. by rewrite H23.
  - intros. apply sync_row_durable.
Qed.

Lemma sync_rows_frame self partition rows rows_sent w l :
  l ≠ (name self, truthy_ctx partition) →
  read_bookmark
    (tap_state (_sync_records_rows self partition rows rows_sent w).2) l
  = read_bookmark (tap_state w) l.
Proof.
  revert l.
  apply (sync_rows_lift self partition
           (λ w w', ∀ l, l ≠ (name self, truthy_ctx partition) →
                         read_bookmark (tap_state w') l
                         = read_bookmark (tap_state w) l)).
  - done.
  - intros w1 w2 w3 H12 H23 l Hl. by rewrite H23, H12.
  - intros. by apply sync_row_frame.
Qed.

(** One partition of the loop: its state entry got or created and its
    progress markers reset, its rows, and, when they return, its progress
    markers finalized before the next partition. *)
Lemma sync_partitions_cons self p ps rows_sent w :
  _sync_records_partitions self (p :: ps) rows_sent w
  = match _sync_records_rows self p (get_records self p) rows_sent
            (World
               (alter_bookmark (set_progress_marker None)
                  (name self, truthy_ctx p)
                  (alter_bookmark id (name self, truthy_ctx p) (tap_state w)))
               (clock w) (out w) (log w)) with
    | (Returned n, w1) =>
        _sync_records_partitions self ps n
          (World
             (alter_bookmark promote_progress_marker (name self, truthy_ctx p)
                (tap_state w1))
             (clock w1) (out w1) (log w1))
    | (Raised e, w1) => (Raised e, w1)
    end.
Proof. done. Qed.

(** The partitions the loop goes through are the only places it touches. *)
Lemma sync_partitions_frame self ps : ∀ rows_sent w l,
  (∀ p, p ∈ ps → l ≠ (name self, truthy_ctx p)) →
  read_bookmark
    (tap_state (_sync_records_partitions self ps rows_sent w).2) l
  = read_bookmark (tap_state w) l.
Proof.
  induction ps as [|p ps IH]; intros rows_sent w l Hl; [done|].
  rewrite sync_partitions_cons.
  assert (l ≠ (name self, truthy_ctx p)) as Hp by (apply Hl; left).
  match goal with |- context [_sync_records_rows self p ?rows ?n ?w0] =>
    pose proof (sync_rows_frame self p rows n w0 l Hp) as Hf;
    destruct (_sync_records_rows self p rows n w0) as [[n1|e] w1] end;
    simpl in Hf.
  - rewrite IH by (intros; apply Hl; by right). simpl.
    rewrite read_alter_ne, Hf by done.
    by rewrite read_alter_ne, read_alter_id.
  - simpl. rewrite Hf. by rewrite read_alter_ne, read_alter_id.
Qed.

(** The record messages written for the rows of a partition are those of
    the first [k] rows, in order, and the cap bounds [k]: all the rows when
    the loop returns, fewer when the limit exception is raised. *)
Lemma sync_rows_out self partition rows : ∀ rows_sent w,
  let r := _sync_records_rows self partition rows rows_sent w in
  ∃ new (k : nat),
    out r.2 = out w ++ new
    ∧ emitted_rows new = emitted self <$> take k rows
    ∧ (k ≤ length rows)%nat
    ∧ (k ≠ 0%nat →
       from_option (λ limit, rows_sent + Z.of_nat k ≤ limit) True
         (_MAX_RECORDS_LIMIT self))
    ∧ (∀ n, r.1 = Returned n →
         k = length rows ∧ n = rows_sent + Z.of_nat k)
    ∧ (r.1 = Raised MaxRecordsLimitException →
       (k < length rows)%nat
       ∧ from_option (λ limit, limit ≤ rows_sent + Z.of_nat k) False
           (_MAX_RECORDS_LIMIT self)).
Proof.
  induction rows as [|raw rest IH]; intros rows_sent w; simpl.
  - exists [], 0%nat. rewrite app_nil_r.
    split; [done|]. split; [done|]. split; [done|]. split; [done|].
    split; [|done]. intros n [= <-]. split; [done|lia].
  - unfold mbind, M_bind.
    pose proof (sync_row_out self partition rows_sent raw w) as (Hn & Hout).
    pose proof (sync_row_max self partition rows_sent raw w) as Hmax.
    destruct (_sync_records_row self partition rows_sent raw w)
      as [[n1|e] w1]; simpl in *.
    + rewrite (Hn n1 eq_refl). clear Hmax.
      destruct Hout as (new1 & Hout1 & [[_ Hno]|[Hrows1 Hcap1]]);
        [by destruct (Hno n1)|].
      destruct (IH (rows_sent + 1) w1)
        as (new2 & k2 & Hout2 & Hrows2 & Hle2 & Hcap2 & Hret2 & Hmax2).
      exists (new1 ++ new2), (S k2). rewrite Hout2, Hout1, <- app_assoc.
      split; [done|]. split.
      { rewrite emitted_rows_app, Hrows1, Hrows2. done. }
      split; [lia|]. split.
      { intros _. destruct (_MAX_RECORDS_LIMIT self) as [limit|]; [|done].
        simpl in *. destruct k2; [lia|]. specialize (Hcap2 ltac:(done)). lia. }
      split.
      { intros n Hr. destruct (Hret2 n Hr) as [-> ->]. split; [done|lia]. }
      intros Hr. destruct (Hmax2 Hr) as [Hlt Hhit]. split; [lia|].
      destruct (_MAX_RECORDS_LIMIT self) as [limit|]; [|done]. simpl in *. lia.
    + destruct (decide (e = MaxRecordsLimitException)) as [->|Hne].
      * destruct (Hmax eq_refl) as [Hhit ->].
        exists [], 0%nat. rewrite app_nil_r.
        split; [done|]. split; [done|]. split; [lia|]. split; [done|].
        split; [done|]. intros _. split; [lia|].
        destruct (_MAX_RECORDS_LIMIT self) as [limit|]; [|done].
        simpl in *. lia.
      * destruct Hout as (new1 & Hout1 & [[Hrows1 _]|[Hrows1 Hcap1]]).
        -- exists new1, 0%nat.
           split; [done|]. split; [done|]. split; [lia|]. split; [done|].
           split; [done|]. intros [= ->]. done.
        -- exists new1, 1%nat. split; [done|]. split; [done|].
           split; [lia|]. split.
           { intros _. destruct (_MAX_RECORDS_LIMIT self) as [limit|]; [|done].
             simpl in *. lia. }
           split; [done|]. intros [= ->]. done.
Qed.

(** The same over the partitions, the count going on from one partition to
    the next. *)
Lemma sync_partitions_out self ps : ∀ rows_sent w,
  let r := _sync_records_partitions self ps rows_sent w in
  ∃ new (k : nat),
    out r.2 = out w ++ new
    ∧ emitted_rows new = emitted self <$> take k (all_rows self ps)
    ∧ (k ≤ length (all_rows self ps))%nat
    ∧ (k ≠ 0%nat →
       from_option (λ limit, rows_sent + Z.of_nat k ≤ limit) True
         (_MAX_RECORDS_LIMIT self))
    ∧ (∀ n, r.1 = Returned n →
         k = length (all_rows self ps) ∧ n = rows_sent + Z.of_nat k)
    ∧ (r.1 = Raised MaxRecordsLimitException →
       (k < length (all_rows self ps))%nat
       ∧ from_option (λ limit, limit ≤ rows_sent + Z.of_nat k) False
           (_MAX_RECORDS_LIMIT self)).
Proof.
  induction ps as [|p ps IH]; intros rows_sent w.
  - exists [], 0%nat. simpl. rewrite app_nil_r.
    split; [done|]. split; [done|]. split; [done|]. split; [done|].
    split; [|done]. intros n [= <-]. split; [done|lia].
  - unfold all_rows. rewrite fmap_cons, concat_cons.
    fold (all_rows self ps). rewrite sync_partitions_cons.
    match goal with |- context [_sync_records_rows self p ?rows ?n ?w0] =>
      pose proof (sync_rows_out self p rows n w0)
        as (new1 & k1 & Hout1 & Hrows1 & Hle1 & Hcap1 & Hret1 & Hmax1);
      destruct (_sync_records_rows self p rows n w0) as [[n1|e] w1] end;
      simpl in *.
    + destruct (Hret1 n1 eq_refl) as [-> ->].
      match goal with |- context [_sync_records_partitions self ps ?n ?w0] =>
        destruct (IH n w0)
          as (new2 & k2 & Hout2 & Hrows2 & Hle2 & Hcap2 & Hret2 & Hmax2);
        destruct (_sync_records_partitions self ps n w0) as [o2 w2] end.
      simpl in *.
      exists (new1 ++ new2), (length (get_records self p) + k2)%nat.
      rewrite Hout2, Hout1, <- app_assoc. split; [done|]. split.
      { rewrite emitted_rows_app, Hrows1, Hrows2, take_app_add, fmap_app.
        by rewrite firstn_all. }
      rewrite length_app. split; [lia|]. split.
      { intros Hk. destruct (_MAX_RECORDS_LIMIT self) as [limit|]; [|done].
        simpl in *. destruct k2.
        - rewrite Nat.add_0_r in *. by apply Hcap1.
        - specialize (Hcap2 ltac:(done)). lia. }
      split.
      { intros n Hr. destruct (Hret2 n Hr) as [-> ->]. split; [done|lia]. }
      intros Hr. destruct (Hmax2 Hr) as [Hlt Hhit]. split; [lia|].
      destruct (_MAX_RECORDS_LIMIT self) as [limit|]; [|done]. simpl in *. lia.
    + exists new1, k1. split; [done|]. split.
      { by rewrite take_app_le by done. }
      rewrite length_app. split; [lia|]. split; [done|]. split; [done|].
      intros Hr. destruct (Hmax1 Hr). split; [lia|done].
Qed.

(** The log of the loops: the entry of the ordering error when that is what
    ends them, nothing otherwise. *)
Lemma sync_rows_log self partition rows : ∀ rows_sent w,
  let r := _sync_records_rows self partition rows rows_sent w in
  match r.1 with
  | Raised InvalidStreamSortException =>
      ∃ ordinal,
        log r.2 = log w ++ [LogSortingError ordinal (truthy_ctx partition)
                              InvalidStreamSortException]
        ∧ rows_sent < ordinal ≤ rows_sent + Z.of_nat (length rows)
  | _ => log r.2 = log w
  end.
Proof.
  induction rows as [|raw rest IH]; intros rows_sent w; simpl; [done|].
  unfold mbind, M_bind.
  pose proof (sync_row_log self partition rows_sent raw w) as Hlog.
  pose proof (sync_row_out self partition rows_sent raw w) as (Hn & _).
  destruct (_sync_records_row self partition rows_sent raw w) as [[n1|e] w1];
    simpl in *.
  - rewrite (Hn n1 eq_refl). specialize (IH (rows_sent + 1) w1). simpl in IH.
    destruct (_sync_records_rows self partition rest (rows_sent + 1) w1)
      as [[n|e] w']; simpl in *; [congruence|].
    destruct e; try congruence.
    destruct IH as (ordinal & Hl & Hord). exists ordinal.
    split; [congruence|lia].
  - destruct e; try done. exists (rows_sent + 1). split; [done|lia].
Qed.

Lemma sync_partitions_log self ps : ∀ rows_sent w,
  let r := _sync_records_partitions self ps rows_sent w in
  match r.1 with
  | Raised InvalidStreamSortException =>
      ∃ ordinal p,
        p ∈ ps
        ∧ log r.2 = log w ++ [LogSortingError ordinal (truthy_ctx p)
                                InvalidStreamSortException]
        ∧ rows_sent < ordinal
          ≤ rows_sent + Z.of_nat (length (all_rows self ps))
  | _ => log r.2 = log w
  end.
Proof.
  induction ps as [|p ps IH]; intros rows_sent w; [done|].
  unfold all_rows. rewrite fmap_cons, concat_cons, length_app.
  fold (all_rows self ps). rewrite sync_partitions_cons.
  match goal with |- context [_sync_records_rows self p ?rows ?n ?w0] =>
    pose proof (sync_rows_log self p rows n w0) as Hlog;
    pose proof (sync_rows_out self p rows n w0)
      as (_ & k1 & _ & _ & _ & _ & Hret1 & _);
    destruct (_sync_records_rows self p rows n w0) as [[n1|e] w1] end;
    simpl in *.
  - destruct (Hret1 n1 eq_refl) as [-> ->].
    match goal with |- context [_sync_records_partitions self ps ?n ?w0] =>
      specialize (IH n w0); simpl in IH;
      destruct (_sync_records_partitions self ps n w0) as [[n2|e] w2] end;
      simpl in *; [congruence|].
    destruct e; try congruence.
    destruct IH as (ordinal & p' & Hp' & Hl & Hord). exists ordinal, p'.
    split; [by right|]. split; [congruence|lia].
  - destruct e; try done. destruct Hlog as (ordinal & Hl & Hord).
    exists ordinal, p. split; [by left|]. split; [done|lia].
Qed.

(** ** Any outcome of a sync *)

Lemma _sync_records_cases self partition w :
  _sync_records self partition w
  = match _sync_records_partitions self
            (planned_partitions self partition (tap_state w)) 0 w with
    | (Returned n, w1) =>
        (Returned (),
         World (tap_state w1) (clock w1)
           (out w1 ++ [StateMessage (tap_state w1)])
           (log w1 ++ [LogCompleted (name self) n]))
    | (Raised e, w1) => (Raised e, w1)
    end.
Proof.
  rewrite _sync_records_eq. unfold mbind at 1, M_bind at 1.
  by destruct (_sync_records_partitions _ _ _ _) as [[n|e] w1].
Qed.

(** X1.  The record messages a sync writes are those of the first rows of its
    partitions, in the order of the loop, whatever its outcome: all the
    rows when it returns, and never more rows than the cap. *)
Theorem sync_emits_first_rows_within_cap (self : Stream)
    (partition : option context) (w : world) :
  let r := _sync_records self partition w in
  let rows :=
    all_rows self (planned_partitions self partition (tap_state w)) in
  ∃ new (k : nat),
    out r.2 = out w ++ new
    ∧ emitted_rows new = emitted self <$> take k rows
    ∧ (k ≤ length rows)%nat
    ∧ (r.1 = Returned () → k = length rows)
    ∧ from_option (λ limit, 0 ≤ limit → Z.of_nat k ≤ limit) True
        (_MAX_RECORDS_LIMIT self).
Proof.
  simpl. rewrite _sync_records_cases.
  destruct (sync_partitions_out self
              (planned_partitions self partition (tap_state w)) 0 w)
    as (new & k & Hout & Hrows & Hle & Hcap & Hret & _).
  assert (from_option (λ limit, 0 ≤ limit → Z.of_nat k ≤ limit) True
            (_MAX_RECORDS_LIMIT self)) as Hbound.
  { destruct (_MAX_RECORDS_LIMIT self) as [limit|]; [|done]. simpl in *.
    intros Hpos. destruct k; [lia|]. specialize (Hcap ltac:(done)). lia. }
  destruct (_sync_records_partitions _ _ _ _) as [[n|e] w1]; simpl in *.
  - exists (new ++ [StateMessage (tap_state w1)]), k.
    rewrite Hout, <- app_assoc. split; [done|]. split.
    { by rewrite emitted_rows_app, Hrows, app_nil_r. }
    split; [done|]. split; [|done]. intros _. by destruct (Hret n).
  - exists new, k. by repeat (split; [done|]).
Qed.

(** X2.  The limit exception is raised only by a sync that has more rows than
    the cap, and such a sync has then written the record messages of the
    first rows, as many as the cap allows, and nothing after them. *)
Theorem limit_exception_after_cap_rows (self : Stream)
    (partition : option context) (w : world) :
  let r := _sync_records self partition w in
  let rows :=
    all_rows self (planned_partitions self partition (tap_state w)) in
  r.1 = Raised MaxRecordsLimitException →
  ∃ limit new,
    _MAX_RECORDS_LIMIT self = Some limit
    ∧ limit < Z.of_nat (length rows)
    ∧ out r.2 = out w ++ new
    ∧ emitted_rows new = emitted self <$> take (Z.to_nat limit) rows.
Proof.
  simpl. rewrite _sync_records_cases.
  destruct (sync_partitions_out self
              (planned_partitions self partition (tap_state w)) 0 w)
    as (new & k & Hout & Hrows & Hle & Hcap & _ & Hmax).
  destruct (_sync_records_partitions _ _ _ _) as [[n|e] w1]; simpl in *;
    [done|].
  intros [= ->]. destruct (Hmax eq_refl) as [Hlt Hhit].
  destruct (_MAX_RECORDS_LIMIT self) as [limit|]; [|done]. simpl in *.
  exists limit, new. split; [done|]. split; [lia|]. split; [done|].
  rewrite Hrows. f_equal. f_equal.
  destruct k; [lia|]. specialize (Hcap ltac:(done)). lia.
Qed.

(** X3.  The log of a sync: the count of the rows when it returns, which is the
    number of record messages written; the one entry of the ordering error,
    with a partition of the sync and the ordinal of a row, when that error
    ends it; nothing when another exception ends it. *)
Theorem sync_log_entries (self : Stream) (partition : option context)
    (w : world) :
  let r := _sync_records self partition w in
  let planned := planned_partitions self partition (tap_state w) in
  match r.1 with
  | Returned _ =>
      log r.2
      = log w ++ [LogCompleted (name self)
                    (Z.of_nat (length (all_rows self planned)))]
  | Raised InvalidStreamSortException =>
      ∃ ordinal p,
        p ∈ planned
        ∧ log r.2 = log w ++ [LogSortingError ordinal (truthy_ctx p)
                                InvalidStreamSortException]
        ∧ 0 < ordinal ≤ Z.of_nat (length (all_rows self planned))
  | Raised _ => log r.2 = log w
  end.
Proof.
  simpl. rewrite _sync_records_cases.
  pose proof (sync_partitions_log self
                (planned_partitions self partition (tap_state w)) 0 w) as Hlog.
  destruct (sync_partitions_out self
              (planned_partitions self partition (tap_state w)) 0 w)
    as (_ & k & _ & _ & _ & _ & Hret & _).
  destruct (_sync_records_partitions _ _ _ _) as [[n|e] w1]; simpl in *.
  - destruct (Hret n eq_refl) as [-> ->]. by rewrite Hlog.
  - done.
Qed.

(** X4.  A sync changes no bookmark but those of the partitions it goes through:
    not those of other streams, and, called for one partition, not those of
    the other partitions of the stream. *)
Theorem sync_touches_planned_partitions_only (self : Stream)
    (partition : option context) (w : world) (l : loc) :
  (∀ p, p ∈ planned_partitions self partition (tap_state w) →
        l ≠ (name self, truthy_ctx p)) →
  read_bookmark (tap_state (_sync_records self partition w).2) l
  = read_bookmark (tap_state w) l.
Proof.
  intros Hl. rewrite _sync_records_cases.
  pose proof (sync_partitions_frame self
                (planned_partitions self partition (tap_state w)) 0 w l Hl)
    as Hf.
  by destruct (_sync_records_partitions _ _ _ _) as [[n|e] w1].
Qed.

(** X5.  A sync of one partition that ends with an exception has promoted
    nothing: the durable part of every bookmark is as it was. *)
Theorem sync_abort_keeps_durable_bookmarks (self : Stream)
    (partition p : option context) (w : world) (e : exn) (l : loc) :
  planned_partitions self partition (tap_state w) = [p] →
  (_sync_records self partition w).1 = Raised e →
  durable (read_bookmark (tap_state (_sync_records self partition w).2) l)
  = durable (read_bookmark (tap_state w) l).
Proof.
  intros Hplan. rewrite _sync_records_cases, Hplan, sync_partitions_cons.
  match goal with |- context [_sync_records_rows self p ?rows ?n ?w0] =>
    pose proof (sync_rows_durable self p rows n w0 l) as Hd;
    destruct (_sync_records_rows self p rows n w0) as [[n1|e1] w1] end;
    simpl in *; [done|].
  intros _. rewrite Hd.
  destruct (decide ((name self, truthy_ctx p) = l)) as [<-|Hne].
  - by rewrite read_alter, read_alter_id.
  - by rewrite read_alter_ne, read_alter_id.
Qed.

(** ** The cadence of state messages, in general *)

Lemma flush_due_spec self rows_sent :
  flush_due self rows_sent
  ↔ rows_sent ≠ 0 ∧ (rows_sent - 1) `mod` STATE_MSG_FREQUENCY self = 0.
Proof.
  unfold flush_due. rewrite andb_True, negb_True.
  destruct (Z.eqb_spec rows_sent 0), (Z.eqb_spec
    ((rows_sent - 1) `mod` STATE_MSG_FREQUENCY self) 0); simpl; tauto.
Qed.

Lemma flush_points_expected self n : ∀ rows_sent,
  flush_points rows_sent (expected_kinds self rows_sent n)
  = filter (λ k, k ≠ 0 ∧ (k - 1) `mod` STATE_MSG_FREQUENCY self = 0)
      (seqZ rows_sent (Z.of_nat n)).
Proof.
  induction n as [|n IH]; intros rows_sent; [done|].
  rewrite seqZ_cons by lia. rewrite filter_cons.
  replace (Z.pred (Z.of_nat (S n))) with (Z.of_nat n) by lia.
  replace (Z.succ rows_sent) with (rows_sent + 1) by lia.
  rewrite <- IH. simpl.
  pose proof (flush_due_spec self rows_sent) as Hspec.
  destruct (flush_due self rows_sent); simpl.
  - rewrite decide_True; [done|]. by apply Hspec.
  - rewrite decide_False; [done|]. intros H. by apply Hspec in H.
Qed.

Lemma flush_points_final self n : ∀ rows_sent,
  flush_points rows_sent (expected_kinds self rows_sent n ++ [false])
  = flush_points rows_sent (expected_kinds self rows_sent n)
    ++ [rows_sent + Z.of_nat n].
Proof.
  induction n as [|n IH]; intros rows_sent; simpl.
  - by rewrite Z.add_0_r.
  - replace (rows_sent + Z.of_nat (S n))
      with (rows_sent + 1 + Z.of_nat n) by lia.
    destruct (flush_due self rows_sent); simpl; by rewrite IH.
Qed.

(** X6.  A sync of [n] rows that returns has written its intermediate state
    messages when the number [k] of rows sent was not zero and such that
    [(k - 1) mod STATE_MSG_FREQUENCY = 0], for [k] below [n], and at no
    other time; the count runs across the partitions.  Its last message is
    the final state message, which carries the state tree as the sync
    leaves it. *)
Theorem state_message_cadence (self : Stream) (partition : option context)
    (w w' : world) :
  _sync_records self partition w = (Returned (), w') →
  let n := length (all_rows self
                     (planned_partitions self partition (tap_state w))) in
  ∃ new,
    out w' = out w ++ new ++ [StateMessage (tap_state w')]
    ∧ flush_points 0 (kinds new)
      = filter (λ k, k ≠ 0 ∧ (k - 1) `mod` STATE_MSG_FREQUENCY self = 0)
          (seqZ 0 (Z.of_nat n))
    ∧ flush_points 0 (kinds (new ++ [StateMessage (tap_state w')]))
      = flush_points 0 (kinds new) ++ [Z.of_nat n].
Proof.
  intros Hrun n.
  apply _sync_records_returned in Hrun as (m & w1 & Hrun & ->).
  apply sync_partitions_returned in Hrun as (_ & _ & new & Hout & Hkinds & _).
  exists new. simpl. rewrite Hout, <- app_assoc. split; [done|].
  rewrite Hkinds. split; [apply flush_points_expected|].
  unfold kinds in *. rewrite fmap_app, Hkinds. simpl fmap.
  by rewrite flush_points_final.
Qed.

(** ** Edges of the loop *)

Lemma sync_partitions_no_rows self ps : ∀ rows_sent w,
  (∀ p, p ∈ ps → get_records self p = []) →
  ∃ w',
    _sync_records_partitions self ps rows_sent w = (Returned rows_sent, w')
    ∧ out w' = out w ∧ log w' = log w ∧ clock w' = clock w
    ∧ ∀ l, durable (read_bookmark (tap_state w') l)
           = durable (read_bookmark (tap_state w) l).
Proof.
  induction ps as [|p ps IH]; intros rows_sent w Hrows.
  - by exists w.
  - rewrite sync_partitions_cons, (Hrows p) by by left. simpl.
    match goal with |- context [_sync_records_partitions self ps ?n ?w0] =>
      destruct (IH n w0) as (w' & -> & Hout & Hlog & Hclock & Hd) end.
    { intros. apply Hrows. by right. }
    exists w'. split; [done|]. repeat (split; [done|]).
    intros l. rewrite Hd. simpl.
    destruct (decide ((name self, truthy_ctx p) = l)) as [<-|Hne].
    + by rewrite !read_alter.
    + by rewrite !read_alter_ne by done.
Qed.

(** X7.  A sync whose partitions have no rows returns, for any stream, even one
    without schema or without the replication key its method needs: it
    writes the final state message and nothing else, logs a count of zero,
    and leaves the durable part of every bookmark as it was. *)
Theorem sync_without_rows (self : Stream) (partition : option context)
    (w : world) :
  (∀ p, p ∈ planned_partitions self partition (tap_state w) →
        get_records self p = []) →
  ∃ w',
    _sync_records self partition w = (Returned (), w')
    ∧ out w' = out w ++ [StateMessage (tap_state w')]
    ∧ log w' = log w ++ [LogCompleted (name self) 0]
    ∧ clock w' = clock w
    ∧ ∀ l, durable (read_bookmark (tap_state w') l)
           = durable (read_bookmark (tap_state w) l).
Proof.
  intros Hrows. rewrite _sync_records_cases.
  destruct (sync_partitions_no_rows self _ 0 w Hrows)
    as (w1 & -> & Hout & Hlog & Hclock & Hd).
  eexists. split; [done|]. simpl. by rewrite Hout, Hlog.
Qed.

(** X8.  With a frequency of zero the flush test divides by zero as soon as one
    row has been sent: a stream that keeps no bookmark, whose first
    partition has two rows or more, ends with [ZeroDivisionError] after the
    record message of its first row. *)
Theorem zero_frequency_fails_at_second_row (self : Stream)
    (partition p : option context) (ps : list (option context))
    (row1 row2 : record) (rest : list record) (w : world) :
  STATE_MSG_FREQUENCY self = 0 →
  replication_method self ∉ [REPLICATION_INCREMENTAL; REPLICATION_LOG_BASED] →
  is_Some (_schema self) →
  cap_allows self 0 2 →
  planned_partitions self partition (tap_state w) = p :: ps →
  get_records self p = row1 :: row2 :: rest →
  let r := _sync_records self partition w in
  r.1 = Raised ZeroDivisionError
  ∧ out r.2 = out w ++ [record_message self row1 (now (clock w))]
  ∧ log r.2 = log w.
Proof.
  intros Hfreq Hmethod Hschema Hcap Hplan Hrows.
  assert (∀ w0, _sync_records_row self p 0 row1 w0
                = (Returned 1,
                   World (alter_bookmark id (name self, truthy_ctx p)
                            (tap_state w0))
                     (S (clock w0))
                     (out w0 ++ [record_message self row1 (now (clock w0))])
                     (log w0))) as Hfirst.
  { intros w0. rewrite sync_row_prefix.
    - unfold mbind at 1, M_bind at 1, try_except.
      rewrite _increment_stream_state_noop by by right. done.
    - split; [done|]. split; [|by left]. unfold cap_allows in Hcap.
      destruct (_MAX_RECORDS_LIMIT self); simpl in *; lia. }
  assert (∀ w1, _sync_records_row self p 1 row2 w1
                = (Raised ZeroDivisionError, w1)) as Hsecond.
  { intros w1. unfold _sync_records_row. rewrite cap_check_passes.
    - rewrite Hfreq. by unfold_M.
    - unfold cap_allows in Hcap.
      destruct (_MAX_RECORDS_LIMIT self); simpl in *; lia. }
  simpl. rewrite _sync_records_cases, Hplan, sync_partitions_cons, Hrows.
  simpl _sync_records_rows. unfold mbind, M_bind.
  rewrite Hfirst, Hsecond. done.
Qed.

(** X9.  A row that is empty once its deselected fields are stripped is written
    and counted like any other, but the checkpoint step skips it: no
    bookmark changes, and no stream raises on it, not even one whose method
    needs a replication key it does not have. *)
Theorem empty_row_is_sent_without_checkpoint (self : Stream)
    (partition : option context) (rows_sent : Z) (raw : record) (w : world) :
  row_ready self rows_sent →
  pop_deselected_record_properties raw (_tap_input_catalog self) (name self)
  = ∅ →
  let r := _sync_records_row self partition rows_sent raw w in
  r.1 = Returned (rows_sent + 1)
  ∧ out r.2 = out w ++ row_messages self rows_sent raw w
  ∧ log r.2 = log w
  ∧ ∀ l, read_bookmark (tap_state r.2) l = read_bookmark (tap_state w) l.
Proof.
  intros Hready Hempty.
  assert (_sync_records_row self partition rows_sent raw w
          = (Returned (rows_sent + 1),
             World (alter_bookmark id (name self, truthy_ctx partition)
                      (tap_state w))
               (S (clock w)) (out w ++ row_messages self rows_sent raw w)
               (log w))) as ->.
  { rewrite sync_row_prefix by done.
    unfold mbind at 1, M_bind at 1, try_except.
    by rewrite _increment_stream_state_noop by by left. }
  simpl. repeat (split; [done|]). intros l. apply read_alter_id.
Qed.

(** X10.  The replication key among the fields that the catalog deselects: the
    row reaches the checkpoint step without it, and the turn ends with
    [KeyError], the record message written and no bookmark changed. *)
Theorem deselected_replication_key_raises (self : Stream)
    (partition : option context) (rows_sent : Z) (raw : record) (w : world)
    (rk : string) (catalog : list CatalogEntry.t) (e : CatalogEntry.t) :
  row_ready self rows_sent →
  replication_method self ∈ [REPLICATION_INCREMENTAL; REPLICATION_LOG_BASED] →
  replication_key self = Some rk →
  _tap_input_catalog self = Some catalog →
  get_stream catalog (name self) = Some e →
  rk ∈ CatalogEntry.deselected_fields e →
  pop_deselected_record_properties raw (_tap_input_catalog self) (name self)
  ≠ ∅ →
  let r := _sync_records_row self partition rows_sent raw w in
  r.1 = Raised KeyError
  ∧ out r.2 = out w ++ row_messages self rows_sent raw w
  ∧ log r.2 = log w
  ∧ ∀ l, read_bookmark (tap_state r.2) l = read_bookmark (tap_state w) l.
Proof.
  intros Hready Hmethod Hkey Hcat He Hrk Hne.
  assert (pop_deselected_record_properties raw (_tap_input_catalog self)
            (name self) !! rk = None) as Hnone.
  { unfold pop_deselected_record_properties. rewrite Hcat, He.
    apply map_lookup_filter_None_2. right. intros x _ Hx. by apply Hx. }
  assert (∃ ts, is_timestamp_replication_key self = Returned ts) as [ts Hts].
  { unfold is_timestamp_replication_key, schema. rewrite Hkey.
    destruct Hready as ([s ->] & _). eauto. }
  assert (_sync_records_row self partition rows_sent raw w
          = (Raised KeyError,
             World (alter_bookmark id (name self, truthy_ctx partition)
                      (tap_state w))
               (if ts then S (S (clock w)) else S (clock w))
               (out w ++ row_messages self rows_sent raw w) (log w))) as ->.
  { rewrite sync_row_prefix by done.
    unfold mbind at 1, M_bind at 1, try_except.
    erewrite _increment_stream_state_eq by done.
    unfold increment_state. rewrite Hnone. unfold raise. simpl.
    by destruct ts. }
  simpl. repeat (split; [done|]). intros l. apply read_alter_id.
Qed.

(** ** The signpost and the starting timestamp *)

(** X11.  The signpost never touches the state tree or the output.  Without
    replication key there is no ceiling and the schema is not looked at;
    with a key and no schema it raises [ValueError]; the clock is read
    exactly when the key is timestamp-typed, and the ceiling is that
    reading. *)
Theorem get_replication_key_signpost_cases (self : Stream)
    (partition : option context) (w : world) :
  let r := get_replication_key_signpost self partition w in
  tap_state r.2 = tap_state w ∧ out r.2 = out w ∧ log r.2 = log w
  ∧ match replication_key self, _schema self with
    | None, _ => r = (Returned None, w)
    | Some _, None => r = (Raised ValueError, w)
    | Some rk, Some s =>
        if is_datetime_type (s !! rk)
        then r.1 = Returned (Some (VTime (now (clock w))))
             ∧ clock r.2 = S (clock w)
        else r = (Returned None, w)
    end.
Proof.
  unfold get_replication_key_signpost, is_timestamp_replication_key, schema.
  destruct (replication_key self) as [rk|]; [|done].
  destruct (_schema self) as [s|]; [|done].
  by destruct (is_datetime_type (s !! rk)).
Qed.

(** X12.  Looking up the starting timestamp changes no bookmark, reads no clock
    and writes nothing, whatever it returns or raises. *)
Theorem get_starting_timestamp_reads_only (self : Stream)
    (partition : option context) (w : world) :
  let r := get_starting_timestamp self partition w in
  (∀ l, read_bookmark (tap_state r.2) l = read_bookmark (tap_state w) l)
  ∧ clock r.2 = clock w ∧ out r.2 = out w ∧ log r.2 = log w.
Proof.
  unfold get_starting_timestamp, get_stream_or_partition_state,
    get_writeable_state_dict.
  destruct (is_timestamp_replication_key self) as [[]|e]; unfold_M; simpl;
    repeat case_match; simplify_eq/=; repeat split; try done;
    intros; apply read_alter_id.
Qed.

(** ** The empty partition context *)

Lemma truthy_ctx_empty : truthy_ctx (Some ∅) = None.
Proof. unfold truthy_ctx. by rewrite decide_True. Qed.

(** X13.  An empty dictionary as partition is no partition: the methods go to
    the bookmark of the stream, and [_sync_records] to the partitions of the
    state, exactly as for [None]. *)
Theorem empty_partition_is_no_partition (self : Stream) (row : record)
    (w : world) :
  get_stream_or_partition_state self (Some ∅) w
  = get_stream_or_partition_state self None w
  ∧ _increment_stream_state self row (Some ∅) w
    = _increment_stream_state self row None w
  ∧ get_starting_timestamp self (Some ∅) w
    = get_starting_timestamp self None w
  ∧ _sync_records self (Some ∅) w = _sync_records self None w.
Proof.
  unfold _sync_records, get_starting_timestamp, _increment_stream_state,
    get_replication_key_signpost, get_stream_or_partition_state.
  by rewrite truthy_ctx_empty.
Qed.

(** ** The bookmark a sync leaves *)

(** Step 5 on an unsorted stream: a candidate below the tentative maximum
    changes nothing. *)
Lemma increment_state_below_unsorted state rk row w v m :
  row !! rk = Some v →
  marker_value (tap_state w) state = Some m →
  value_compare v m = Some Lt →
  increment_state state rk None row false w = (Returned (), w).
Proof.
  intros Hv Hm Hlt. unfold increment_state, value_lt, marker_value in *.
  rewrite Hv. unfold_M. simpl.
  destruct (bm_progress_markers (read_bookmark (tap_state w) state)) as [m'|];
    simplify_eq/=.
  by rewrite Hlt.
Qed.

Lemma running_max_ascending vs : ∀ m,
  ascending m vs → running_max m vs = last_value m vs.
Proof.
  induction vs as [|v vs IH]; intros m Hasc; [done|].
  destruct Hasc as [Hle Hasc]. unfold running_max, last_value in *. simpl.
  rewrite <- IH by done. do 2 f_equal.
  destruct m as [u|]; simpl in *; [lia|done].
Qed.

Lemma last_value_last vs : ∀ m, vs ≠ [] → last_value m vs = last vs.
Proof.
  induction vs as [|v vs IH]; intros m Hne; [done|].
  destruct vs as [|v' vs]; [done|].
  change (last_value m (v :: v' :: vs)) with (last_value (Some v) (v' :: vs)).
  by rewrite IH.
Qed.

Lemma running_max_is_Some vs : ∀ m,
  is_Some m ∨ vs ≠ [] → is_Some (running_max m vs).
Proof.
  induction vs as [|v vs IH]; intros m [H|H]; try done;
    apply IH; left; eauto.
Qed.

Section IntegerKeys.

Variable self : Stream.
Variable rk : string.
Variable partition : option context.
Hypothesis Hmethod :
  replication_method self ∈ [REPLICATION_INCREMENTAL; REPLICATION_LOG_BASED].
Hypothesis Hkey : replication_key self = Some rk.
Hypothesis Hts : is_timestamp_replication_key self = Returned false.
Hypothesis Hfreq : STATE_MSG_FREQUENCY self ≠ 0.

(** A turn on an integer key: on an unsorted stream, or when the key is not
    below the tentative maximum, the turn returns and the tentative maximum
    is the greater of the two. *)
Lemma sync_row_integer_key rows_sent raw w v m :
  cap_allows self rows_sent 1 →
  key_values self rk [raw] = [Some (VInt v)] →
  bm_progress_markers
    (read_bookmark (tap_state w) (name self, truthy_ctx partition))
  = ProgressMarker rk ∘ VInt <$> m →
  is_sorted self = false ∨ from_option (λ u, u ≤ v) True m →
  ∃ w',
    _sync_records_row self partition rows_sent raw w
    = (Returned (rows_sent + 1), w')
    ∧ bm_progress_markers
        (read_bookmark (tap_state w') (name self, truthy_ctx partition))
      = Some (ProgressMarker rk (VInt (from_option (Z.max v) v m))).
Proof.
  intros Hcap [= Hv] Hm Hok.
  rewrite sync_row_prefix by by eapply sorted_row_ready.
  unfold mbind at 1, M_bind at 1, try_except.
  erewrite _increment_stream_state_eq; eauto using lookup_Some_nonempty.
  assert (marker_value
            (alter_bookmark id (name self, truthy_ctx partition) (tap_state w))
            (name self, truthy_ctx partition) = VInt <$> m) as Hmv.
  { unfold marker_value. rewrite read_alter_id, Hm. by destruct m. }
  destruct m as [u|]; simpl in Hmv.
  - destruct (Z.compare_spec v u) as [->|Hlt|Hgt].
    + rewrite increment_state_advance with (v := VInt u); [|done|].
      * eexists. split; [done|]. simpl. rewrite read_alter. simpl.
        by rewrite Z.max_id.
      * simpl. rewrite Hmv. simpl. left. by rewrite Z.compare_refl.
    + destruct Hok as [Hunsorted|Hle]; [|simpl in Hle; lia].
      rewrite Hunsorted.
      rewrite increment_state_below_unsorted
        with (v := VInt v) (m := VInt u); [|done|done|].
      * eexists. split; [done|]. simpl. rewrite read_alter_id, Hm. simpl.
        by rewrite Z.max_r by lia.
      * simpl. by apply f_equal, Z.compare_lt_iff.
    + rewrite increment_state_advance with (v := VInt v); [|done|].
      * eexists. split; [done|]. simpl. rewrite read_alter. simpl.
        by rewrite Z.max_l by lia.
      * simpl. rewrite Hmv. simpl. right. by apply f_equal, Z.compare_gt_iff.
  - rewrite increment_state_advance with (v := VInt v); [|done|].
    + eexists. split; [done|]. simpl. by rewrite read_alter.
    + simpl. by rewrite Hmv.
Qed.

Lemma sync_rows_integer_keys vs : ∀ rows rows_sent w m,
  key_values self rk rows = Some ∘ VInt <$> vs →
  is_sorted self = false ∨ ascending m vs →
  cap_allows self rows_sent (length rows) →
  bm_progress_markers
    (read_bookmark (tap_state w) (name self, truthy_ctx partition))
  = ProgressMarker rk ∘ VInt <$> m →
  ∃ w',
    _sync_records_rows self partition rows rows_sent w
    = (Returned (rows_sent + Z.of_nat (length rows)), w')
    ∧ bm_progress_markers
        (read_bookmark (tap_state w') (name self, truthy_ctx partition))
      = ProgressMarker rk ∘ VInt <$> running_max m vs.
Proof.
  induction vs as [|v vs IH]; intros rows rows_sent w m Hvs Hok Hcap Hm.
  - destruct rows; [|done]. exists w. simpl. by rewrite Z.add_0_r.
  - destruct rows as [|raw rows]; [done|]. injection Hvs as Hv Hvs.
    destruct (sync_row_integer_key rows_sent raw w v m)
      as (w1 & Hrow & Hm1); try done.
    { eapply cap_allows_le; [done|]. simpl length. lia. }
    { unfold key_values. simpl. by rewrite Hv. }
    { destruct Hok as [?|[? _]]; [by left|by right]. }
    destruct (IH rows (rows_sent + 1) w1
                (Some (from_option (Z.max v) v m)))
      as (w' & Hrows & Hm'); try done.
    { destruct Hok as [?|[Hle Hasc]]; [by left|right].
      destruct m as [u|]; simpl in *; [|done]. by rewrite Z.max_l by lia. }
    { eapply cap_allows_le; [done|]. simpl length. lia. }
    exists w'. simpl _sync_records_rows.
    erewrite bind_returned by done. rewrite Hrows.
    split; [f_equal; f_equal; simpl length; lia|done].
Qed.

End IntegerKeys.

(** X14.  A stream with an integer replication key, one partition: on an
    unsorted stream, or when the keys never fall, the sync returns and the
    bookmark of the partition holds the replication key and the greatest key
    of the rows, which is the key of the last row when the keys never fall;
    the progress marker is gone. *)
Theorem sync_bookmarks_greatest_key (self : Stream)
    (partition p : option context) (w : world) (rk : string) (vs : list Z) :
  replication_method self ∈ [REPLICATION_INCREMENTAL; REPLICATION_LOG_BASED] →
  replication_key self = Some rk →
  is_timestamp_replication_key self = Returned false →
  STATE_MSG_FREQUENCY self ≠ 0 →
  planned_partitions self partition (tap_state w) = [p] →
  key_values self rk (get_records self p) = Some ∘ VInt <$> vs →
  is_sorted self = false ∨ ascending None vs →
  cap_allows self 0 (length vs) →
  vs ≠ [] →
  ∃ w' greatest,
    _sync_records self partition w = (Returned (), w')
    ∧ running_max None vs = Some greatest
    ∧ (ascending None vs → last vs = Some greatest)
    ∧ read_bookmark (tap_state w') (name self, truthy_ctx p)
      = Bookmark (Some rk) (Some (VInt greatest)) None.
Proof.
  intros Hmethod Hkey Hts Hfreq Hplan Hvs Hok Hcap Hne.
  assert (length (get_records self p) = length vs) as Hlen.
  { apply (f_equal length) in Hvs. unfold key_values in Hvs.
    by rewrite !length_fmap in Hvs. }
  destruct (sync_rows_integer_keys self rk p Hmethod Hkey Hts Hfreq vs
              (get_records self p) 0
              (World
                 (alter_bookmark (set_progress_marker None)
                    (name self, truthy_ctx p)
                    (alter_bookmark id (name self, truthy_ctx p)
                       (tap_state w)))
                 (clock w) (out w) (log w)) None)
    as (w1 & Hrows & Hm); try done.
  { by rewrite Hlen. }
  { simpl. by rewrite read_alter. }
  destruct (running_max_is_Some vs None) as [g Hg]; [by right|].
  rewrite Hg in Hm. simpl in Hm.
  exists (World
            (alter_bookmark promote_progress_marker (name self, truthy_ctx p)
               (tap_state w1))
            (clock w1)
            (out w1 ++ [StateMessage
                          (alter_bookmark promote_progress_marker
                             (name self, truthy_ctx p) (tap_state w1))])
            (log w1 ++ [LogCompleted (name self)
                          (0 + Z.of_nat (length (get_records self p)))])), g.
  split.
  { rewrite _sync_records_cases, Hplan, sync_partitions_cons, Hrows. done. }
  split; [done|]. split.
  { intros Hasc. by rewrite <- last_value_last with (m := None),
      <- running_max_ascending. }
  simpl. rewrite read_alter. unfold promote_progress_marker. by rewrite Hm.
Qed.

(** X15.  A sorted stream with an integer replication key, one partition: the
    first row whose key is below the key of the row before it ends the sync
    with the ordering error.  The log entry carries the ordinal of that row;
    the rows up to it, it included, have been written, and the durable part
    of every bookmark is as it was. *)
Theorem first_descent_raises (self : Stream) (partition p : option context)
    (w : world) (rk : string) (good : list record) (bad : record)
    (unread : list record) (vs : list Z) (v u : Z) :
  is_sorted self = true →
  replication_method self ∈ [REPLICATION_INCREMENTAL; REPLICATION_LOG_BASED] →
  replication_key self = Some rk →
  is_timestamp_replication_key self = Returned false →
  STATE_MSG_FREQUENCY self ≠ 0 →
  planned_partitions self partition (tap_state w) = [p] →
  get_records self p = good ++ bad :: unread →
  key_values self rk good = Some ∘ VInt <$> vs →
  key_values self rk [bad] = [Some (VInt v)] →
  ascending None vs →
  last vs = Some u →
  v < u →
  cap_allows self 0 (length good + 1) →
  ∃ w',
    _sync_records self partition w = (Raised InvalidStreamSortException, w')
    ∧ log w'
      = log w ++ [LogSortingError (Z.of_nat (length good) + 1) (truthy_ctx p)
                    InvalidStreamSortException]
    ∧ (∃ new, out w' = out w ++ new
         ∧ emitted_rows new = emitted self <$> (good ++ [bad]))
    ∧ ∀ l, durable (read_bookmark (tap_state w') l)
           = durable (read_bookmark (tap_state w) l).
Proof.
  intros Hsorted Hmethod Hkey Hts Hfreq Hplan Hrows Hvs Hv Hasc Hlast Hlt Hcap.
  assert (vs ≠ []) as Hne by (by intros ->).
  destruct (sync_rows_out_of_order self rk p Hsorted Hmethod Hkey Hts Hfreq
              vs good bad unread 0
              (World
                 (alter_bookmark (set_progress_marker None)
                    (name self, truthy_ctx p)
                    (alter_bookmark id (name self, truthy_ctx p)
                       (tap_state w)))
                 (clock w) (out w) (log w)) None v u)
    as (w' & Hrun & Hlog & Hout); try done.
  { by rewrite last_value_last. }
  { unfold marker_value. simpl. by rewrite read_alter. }
  exists w'. split.
  { rewrite _sync_records_cases, Hplan, sync_partitions_cons, Hrows.
    by rewrite Hrun. }
  split; [done|]. split; [done|]. intros l.
  pose proof (sync_rows_durable self p (good ++ bad :: unread) 0
                (World
                   (alter_bookmark (set_progress_marker None)
                      (name self, truthy_ctx p)
                      (alter_bookmark id (name self, truthy_ctx p)
                         (tap_state w)))
                   (clock w) (out w) (log w)) l) as Hd.
  rewrite Hrun in Hd. simpl in Hd. rewrite Hd.
  destruct (decide ((name self, truthy_ctx p) = l)) as [<-|Hl].
  - by rewrite !read_alter.
  - by rewrite !read_alter_ne by done.
Qed.

(** ** Timestamp keys and the clock *)

Section TimestampKeys.

Variable self : Stream.
Variable rk : string.
Variable partition : option context.
Hypothesis Hmethod :
  replication_method self ∈ [REPLICATION_INCREMENTAL; REPLICATION_LOG_BASED].
Hypothesis Hkey : replication_key self = Some rk.
Hypothesis Hts : is_timestamp_replication_key self = Returned true.
Hypothesis Hclock : ∀ a b : nat, (a ≤ b)%nat → now a ≤ now b.

Lemma value_compare_VTime_le v t :
  value_compare v (VTime t) = Some Lt ∨ value_compare v (VTime t) = Some Eq →
  ∃ t', v = VTime t' ∧ t' ≤ t.
Proof.
  destruct v as [n|s|t']; simpl; intros [H|H]; try done;
    injection H as H; exists t'; (split; [done|]);
    pose proof (Z.compare_spec t' t) as Hs; rewrite H in Hs;
    inversion Hs; lia.
Qed.

Lemma sync_row_marker_behind_clock rows_sent raw w :
  marker_behind_clock self partition w →
  marker_behind_clock self partition
    (_sync_records_row self partition rows_sent raw w).2.
Proof.
  intros Hinv.
  destruct (sync_row_cases self partition rows_sent raw w)
    as [(_ & ->)|[(_ & _ & ->)|[(_ & ->)|Hready]]]; try done.
  rewrite sync_row_ready_eq by done. simpl.
  set (row := pop_deselected_record_properties raw (_tap_input_catalog self)
                (name self)).
  set (w2 := World (tap_state w) (S (clock w))
               (out w ++ row_messages self rows_sent raw w) (log w)).
  assert (marker_behind_clock self partition
            (_increment_stream_state self row partition w2).2) as Hstep.
  { destruct (decide (row = ∅)) as [Hrow|Hrow].
    - rewrite _increment_stream_state_noop by by left.
      intros m. simpl. rewrite read_alter_id. intros Hm.
      destruct (Hinv m Hm) as (t & Ht & Hpos & Hle).
      exists t. split; [done|]. split; [lia|].
      etrans; [done|]. apply Hclock. lia.
    - erewrite _increment_stream_state_eq by done. simpl.
      match goal with |- context [increment_state ?a ?b (Some ?c) ?d ?e ?w0] =>
        pose proof (increment_state_capped a b c d e w0) as Hcap;
        pose proof (increment_state_frame a b (Some c) d e w0) as (Hc & _);
        destruct (increment_state a b (Some c) d e w0) as [o w3] end.
      simpl in *. rewrite read_alter_id in Hcap.
      intros m Hm. rewrite Hc. simpl.
      destruct Hcap as [Hsame|(v & Hv & _ & Hle)].
      + rewrite Hsame in Hm. destruct (Hinv m Hm) as (t & Ht & Hpos & Hle).
        exists t. split; [done|]. split; [lia|].
        etrans; [done|]. apply Hclock. lia.
      + rewrite Hv in Hm. injection Hm as <-. simpl.
        destruct (value_compare_VTime_le _ _ Hle) as (t' & -> & Hle').
        exists t'. split; [done|]. split; [lia|done]. }
  destruct (_increment_stream_state self row partition w2) as [[[]|e] w3];
    simpl in *; [done|].
  by destruct (decide (e = InvalidStreamSortException)).
Qed.

Lemma sync_rows_marker_behind_clock rows rows_sent w :
  marker_behind_clock self partition w →
  marker_behind_clock self partition
    (_sync_records_rows self partition rows rows_sent w).2.
Proof.
  revert rows rows_sent w.
  apply (sync_rows_lift self partition
           (λ w w', marker_behind_clock self partition w
                    → marker_behind_clock self partition w')).
  - done.
  - intros w1 w2 w3 H12 H23 H1. by apply H23, H12.
  - intros. by apply sync_row_marker_behind_clock.
Qed.

End TimestampKeys.

(** X16.  A stream with a timestamp-typed replication key, a clock that does not
    go back, one partition: after a sync that returns, the bookmark of the
    partition is as it was, or it holds a timestamp that is not after the
    last reading of the clock. *)
Theorem bookmark_not_ahead_of_clock (self : Stream)
    (partition p : option context) (w w' : world) (rk : string) :
  (∀ a b : nat, (a ≤ b)%nat → now a ≤ now b) →
  replication_method self ∈ [REPLICATION_INCREMENTAL; REPLICATION_LOG_BASED] →
  replication_key self = Some rk →
  is_timestamp_replication_key self = Returned true →
  planned_partitions self partition (tap_state w) = [p] →
  _sync_records self partition w = (Returned (), w') →
  durable (read_bookmark (tap_state w') (name self, truthy_ctx p))
  = durable (read_bookmark (tap_state w) (name self, truthy_ctx p))
  ∨ ∃ t,
      bm_replication_key_value
        (read_bookmark (tap_state w') (name self, truthy_ctx p))
      = Some (VTime t)
      ∧ (0 < clock w')%nat ∧ t ≤ now (pred (clock w')).
Proof.
  intros Hclock Hmethod Hkey Hts Hplan.
  rewrite _sync_records_cases, Hplan, sync_partitions_cons.
  match goal with |- context [_sync_records_rows self p ?rows ?n ?w0] =>
    pose proof (sync_rows_marker_behind_clock self rk p Hmethod Hkey Hts
                  Hclock rows n w0) as Hinv;
    pose proof (sync_rows_durable self p rows n w0
                  (name self, truthy_ctx p)) as Hd;
    destruct (_sync_records_rows self p rows n w0) as [[n1|e] w1] end;
    simpl in *; [|done].
  intros [= <-]. simpl. rewrite read_alter.
  rewrite read_alter, read_alter_id in Hd.
  unfold promote_progress_marker.
  destruct (bm_progress_markers
              (read_bookmark (tap_state w1) (name self, truthy_ctx p)))
    as [m|] eqn:Hm.
  - right. destruct Hinv with (m := m) as (t & Ht & Hpos & Hle); [|done|].
    { intros m' Hm'. unfold marker_behind_clock in *. simpl in Hm'.
      by rewrite read_alter in Hm'. }
    exists t. simpl. by rewrite Ht.
  - left. by rewrite Hd.
Qed.

End Methods.

(** ** The catalog *)

(** What [apply_catalog] leaves in the stream when the catalog has an entry
    for it: the entry's keys, whatever they are, and the entry's method when
    it has one. *)
Lemma apply_catalog_entry (self : Stream) (catalog : list CatalogEntry.t)
    (e : CatalogEntry.t) :
  get_stream catalog (name self) = Some e →
  _primary_keys (apply_catalog self catalog) = CatalogEntry.key_properties e
  ∧ _replication_key (apply_catalog self catalog)
    = CatalogEntry.replication_key e
  ∧ forced_replication_method (apply_catalog self catalog)
    = if truthy_str (CatalogEntry.replication_method e)
      then CatalogEntry.replication_method e
      else forced_replication_method self.
Proof.
  intros H. unfold apply_catalog. simpl. rewrite H.
  by destruct (truthy_str (CatalogEntry.replication_method e)).
Qed.

(** C5, on the code.  A catalog entry that declares no keys: the stream's
    own replication key and primary keys are gone after [apply_catalog],
    and with the key the INCREMENTAL method. *)
Theorem apply_catalog_drops_keys :
  replication_key updated_at_stream = Some "updated_at"
  ∧ primary_keys updated_at_stream = Some ["id"]
  ∧ replication_key (apply_catalog updated_at_stream [bare_entry]) = None
  ∧ primary_keys (apply_catalog updated_at_stream [bare_entry]) = None
  ∧ replication_method updated_at_stream = REPLICATION_INCREMENTAL
  ∧ replication_method (apply_catalog updated_at_stream [bare_entry])
    = REPLICATION_FULL_TABLE.
Proof. by vm_compute. Qed.

(** C1, on the code.  Two calls for the same stream and partition, while
    the clock advances: the second returns the later reading, not the value
    of the first. *)
Theorem get_replication_key_signpost_not_frozen :
  let first :=
    get_replication_key_signpost ticking_clock updated_at_stream None
      empty_world in
  let second :=
    get_replication_key_signpost ticking_clock updated_at_stream None first.2 in
  first.1 = Returned (Some (VTime 1000))
  ∧ second.1 = Returned (Some (VTime 1001))
  ∧ second.1 ≠ first.1.
Proof. by vm_compute. Qed.

(** C2, on the code.  Two rows stamped 1002 and a clock that ticks.  The
    ceiling that the checkpoint step of the first row reads is 1001: the row
    is written as a record message and its value is ignored, no tentative
    maximum is kept.  The step of the second row reads the ceiling again,
    1003 by then, and takes the same stamp: the sync returns with both rows
    written and the durable bookmark of the partition at 1002, past the
    ceiling of the first call. *)
Theorem signpost_reread_bookmark_passes_ceiling :
  let self := late_rows_stream in
  let row1 : record := {[ "id" := VInt 1; "updated_at" := VTime 1002 ]} in
  let row2 : record := {[ "id" := VInt 2; "updated_at" := VTime 1002 ]} in
  let opened := partition_opened self None empty_world in
  let ceiling1 :=
    get_replication_key_signpost ticking_clock self None
      (_write_record_message ticking_clock conform_id self row1 opened).2 in
  let turn1 :=
    _sync_records_row ticking_clock conform_id self None 0 row1 opened in
  let ceiling2 :=
    get_replication_key_signpost ticking_clock self None
      (_write_record_message ticking_clock conform_id self row2 turn1.2).2 in
  let pass := _sync_records ticking_clock conform_id self None empty_world in
  get_records self None = [row1; row2]
  ∧ ceiling1.1 = Returned (Some (VTime 1001))
  ∧ value_compare (VTime 1002) (VTime 1001) = Some Gt
  ∧ turn1.1 = Returned 1
  ∧ emitted_rows (out turn1.2) = [emitted conform_id self row1]
  ∧ read_bookmark (tap_state turn1.2) ("users", None)
    = read_bookmark (tap_state opened) ("users", None)
  ∧ ceiling2.1 = Returned (Some (VTime 1003))
  ∧ pass.1 = Returned ()
  ∧ emitted_rows (out pass.2) = emitted conform_id self <$> [row1; row2]
  ∧ read_bookmark (tap_state pass.2) ("users", None)
    = Bookmark (Some "updated_at") (Some (VTime 1002)) None.
Proof. repeat split; vm_compute; reflexivity. Qed.

Lemma apply_catalog_name (self : Stream) (catalog : list CatalogEntry.t) :
  name (apply_catalog self catalog) = name self.
Proof.
  unfold apply_catalog. simpl.
  destruct (get_stream catalog (name self)) as [e|]; [|done].
  by destruct (truthy_str (CatalogEntry.replication_method e)).
Qed.

Lemma replication_method_nonempty (self : Stream) :
  truthy_str (Some (replication_method self)) = true.
Proof.
  unfold replication_method.
  destruct (forced_replication_method self) as [m|].
  - destruct (truthy_str (Some m)) eqn:E; [done|].
    by destruct (truthy_str (replication_key self)).
  - by destruct (truthy_str (replication_key self)).
Qed.

Lemma replication_method_forced (self : Stream) (m : string) :
  forced_replication_method self = Some m → truthy_str (Some m) = true →
  replication_method self = m.
Proof. intros H Hm. unfold replication_method. by rewrite H, Hm. Qed.

(** X17.  Applying the same catalog a second time changes nothing. *)
Theorem apply_catalog_idempotent (self : Stream)
    (catalog : list CatalogEntry.t) :
  apply_catalog (apply_catalog self catalog) catalog
  = apply_catalog self catalog.
Proof.
  unfold apply_catalog. simpl.
  destruct (get_stream catalog (name self)) as [e|] eqn:E; simpl.
  - destruct (truthy_str (CatalogEntry.replication_method e)) eqn:Em; simpl;
      rewrite E; simpl; by rewrite Em.
  - by rewrite E.
Qed.

(** X18.  A stream fed the catalog it declares keeps its primary keys, its
    replication key and its replication method; the method is forced from
    then on. *)
Theorem apply_catalog_own_catalog (self : Stream)
    (c : list SingerCatalogEntry.t) :
  _singer_catalog self = Returned c →
  let self' := apply_catalog self (as_input_entry <$> c) in
  primary_keys self' = primary_keys self
  ∧ replication_key self' = replication_key self
  ∧ replication_method self' = replication_method self
  ∧ forced_replication_method self' = Some (replication_method self).
Proof.
  unfold _singer_catalog, _singer_catalog_entry.
  destruct (schema self) as [s|]; [|done].
  destruct (_singer_metadata self) as [md|]; [|done].
  intros [= <-].
  match goal with |- context [as_input_entry <$> [?e]] => set (e0 := e) end.
  set (c := as_input_entry <$> [e0]).
  destruct (apply_catalog_entry self c (as_input_entry e0))
    as (Hpk & Hrk & Hforced).
  { subst c e0. simpl. unfold tap_stream_id. by rewrite String.eqb_refl. }
  change (CatalogEntry.key_properties (as_input_entry e0))
    with (primary_keys self) in Hpk.
  change (CatalogEntry.replication_key (as_input_entry e0))
    with (replication_key self) in Hrk.
  change (CatalogEntry.replication_method (as_input_entry e0))
    with (Some (replication_method self)) in Hforced.
  rewrite replication_method_nonempty in Hforced.
  cbv zeta. split; [|split; [|split; [|done]]].
  - unfold primary_keys at 1. rewrite Hpk. unfold primary_keys.
    by destruct (truthy_list (_primary_keys self)) eqn:E; rewrite ?E.
  - unfold replication_key at 1. rewrite Hrk. unfold replication_key.
    by destruct (truthy_str (_replication_key self)) eqn:E; rewrite ?E.
  - apply replication_method_forced; [done|].
    apply replication_method_nonempty.
Qed.

(** X19.  The fields that [_write_record_message] strips from a row, which the
    source computes from the catalog the stream declares, are those that the
    stream's entry in the input catalog deselects; without input catalog, or
    without an entry for the stream, no field is stripped. *)
Theorem stripped_fields_of_input_catalog (self : Stream)
    (c : list SingerCatalogEntry.t) (row : record) :
  _singer_catalog self = Returned c →
  pop_deselected_record_properties row (Some (as_input_entry <$> c))
    (name self)
  = pop_deselected_record_properties row (_tap_input_catalog self) (name self)
  ∧ (from_option (λ catalog, get_stream catalog (name self)) None
       (_tap_input_catalog self) = None →
     pop_deselected_record_properties row (Some (as_input_entry <$> c))
       (name self) = row).
Proof.
  unfold _singer_catalog, _singer_catalog_entry.
  destruct (schema self) as [s|] eqn:Hs; [|done].
  destruct (_singer_metadata self) as [md|] eqn:Hmd; [|done].
  intros [= <-]. unfold pop_deselected_record_properties at 1 3.
  unfold as_input_entry, tap_stream_id. simpl. rewrite String.eqb_refl.
  assert (filter (λ kv : string * value, kv.1 ∉ ([] : list string)) row = row)
    as Hnil.
  { apply map_filter_id. intros i x _. simpl. apply not_elem_of_nil. }
  revert Hmd. unfold _singer_metadata, tap_stream_id. rewrite Hs.
  unfold pop_deselected_record_properties.
  destruct (_tap_input_catalog self) as [catalog|]; simpl.
  - destruct (get_stream catalog (name self)) as [e|]; intros [= <-];
      by rewrite ?Hnil.
  - intros [= <-]. by rewrite Hnil.
Qed.

(** X20.  A catalog entry that declares FULL_TABLE switches the checkpoints of
    the stream off, whatever keys the stream or the entry has: the step
    returns and no bookmark is changed. *)
Theorem catalog_full_table_stops_checkpoints (now : nat → Z) (self : Stream)
    (catalog : list CatalogEntry.t) (e : CatalogEntry.t) (row : record)
    (partition : option context) (w : world) :
  get_stream catalog (name self) = Some e →
  CatalogEntry.replication_method e = Some REPLICATION_FULL_TABLE →
  let r :=
    _increment_stream_state now (apply_catalog self catalog) row partition w in
  r.1 = Returned ()
  ∧ (∀ l, read_bookmark (tap_state r.2) l = read_bookmark (tap_state w) l)
  ∧ clock r.2 = clock w ∧ out r.2 = out w ∧ log r.2 = log w.
Proof.
  intros He Hm.
  destruct (apply_catalog_entry self catalog e He) as (_ & _ & Hforced).
  rewrite Hm in Hforced. simpl in Hforced.
  assert (replication_method (apply_catalog self catalog)
          = REPLICATION_FULL_TABLE) as Hmethod
    by by apply replication_method_forced.
  simpl. rewrite _increment_stream_state_noop.
  - simpl. repeat split; try done. intros l. apply read_alter_id.
  - right. rewrite Hmethod. apply full_table_not_incremental.
Qed.

(** X21.  A catalog entry that declares INCREMENTAL or LOG_BASED and no
    replication key: the stream's own key is gone, and the checkpoint step
    raises [ValueError] on every non-empty row. *)
Theorem catalog_without_key_fails_checkpoints (now : nat → Z) (self : Stream)
    (catalog : list CatalogEntry.t) (e : CatalogEntry.t) (m : string)
    (row : record) (partition : option context) (w : world) :
  get_stream catalog (name self) = Some e →
  CatalogEntry.replication_method e = Some m →
  m ∈ [REPLICATION_INCREMENTAL; REPLICATION_LOG_BASED] →
  truthy_str (CatalogEntry.replication_key e) = false →
  row ≠ ∅ →
  (_increment_stream_state now (apply_catalog self catalog) row partition w).1
  = Raised ValueError.
Proof.
  intros He Hm Hin Hkey Hrow.
  destruct (apply_catalog_entry self catalog e He) as (_ & Hrk & Hforced).
  assert (truthy_str (Some m) = true) as Hne.
  { apply elem_of_cons in Hin as [->|Hin]; [done|].
    apply elem_of_cons in Hin as [->|Hin]; [done|].
    by apply elem_of_nil in Hin. }
  rewrite Hm, Hne in Hforced.
  assert (replication_method (apply_catalog self catalog) = m) as Hmethod
    by by apply replication_method_forced.
  assert (replication_key (apply_catalog self catalog) = None) as Hnone.
  { unfold replication_key. by rewrite Hrk, Hkey. }
  unfold _increment_stream_state.
  erewrite bind_returned; [|apply get_stream_or_partition_state_eq].
  rewrite decide_False by done. rewrite bool_decide_true by by rewrite Hmethod.
  by rewrite Hnone.
Qed.

(** ** The theorems at concrete streams *)

Lemma get_starting_timestamp_resume_witness :
  (get_starting_timestamp parse_2021 updated_at_stream None
     (World (bookmarked "updated_at") 0 [] [])).1
  = Returned (Some 1609459200000000)
  ∧ (get_starting_timestamp parse_2021 updated_at_stream None
       (World (bookmarked "created_at") 0 [] [])).1
    = Returned (Some 1577836800000000).
Proof.
  split.
  - refine (eq_trans
      (get_starting_timestamp_resume parse_2021 updated_at_stream None
         (World (bookmarked "updated_at") 0 [] []) true _) _);
      vm_compute; reflexivity.
  - refine (eq_trans
      (get_starting_timestamp_resume parse_2021 updated_at_stream None
         (World (bookmarked "created_at") 0 [] []) true _) _);
      vm_compute; reflexivity.
Defined.

Lemma _increment_stream_state_missing_key_witness :
  (_increment_stream_state ticking_clock misconfigured_stream
     {[ "id" := VInt 1 ]} None empty_world).1 = Raised ValueError
  ∧ (_sync_records_rows ticking_clock conform_id misconfigured_stream None
       (int_rows "id" [1; 2]) 0 empty_world).1 = Raised ValueError.
Proof.
  assert ({[ "id" := VInt 1 ]} ≠ (∅ : record)) as H1.
  { apply (lookup_Some_nonempty _ "id" (VInt 1)). vm_compute. reflexivity. }
  assert (replication_method misconfigured_stream
          ∈ [REPLICATION_INCREMENTAL; REPLICATION_LOG_BASED]) as H2.
  { vm_compute. apply list_elem_of_here. }
  destruct (_increment_stream_state_missing_key ticking_clock conform_id
              misconfigured_stream {[ "id" := VInt 1 ]} None empty_world
              H1 H2 eq_refl) as (Hraise & _ & _ & _ & _ & Hloop).
  split; [exact Hraise|].
  apply Hloop; [reflexivity | eexists; reflexivity | exact I | left; reflexivity].
Defined.

Lemma full_table_no_bookmark_update_witness :
  ∃ w',
    _sync_records ticking_clock conform_id full_table_stream None empty_world
    = (Returned (), w')
    ∧ (∀ l, durable (read_bookmark (tap_state w') l)
            = durable (read_bookmark (tap_state empty_world) l))
    ∧ ∃ new, out w' = out empty_world ++ new
        ∧ emitted_rows new
          = emitted conform_id full_table_stream
            <$> all_rows full_table_stream
                  (planned_partitions full_table_stream None
                     (tap_state empty_world)).
Proof.
  apply (proj2 (full_table_no_bookmark_update ticking_clock conform_id
                  full_table_stream eq_refl) None empty_world).
  - eexists. reflexivity.
  - vm_compute. discriminate.
  - vm_compute. exact I.
Defined.

Lemma state_message_cadence_3_7_witness :
  ∃ w',
    _sync_records ticking_clock conform_id full_table_stream None empty_world
    = (Returned (), w')
    ∧ ∃ new,
        out w' = out empty_world ++ new ++ [StateMessage (tap_state w')]
        ∧ kinds new = [true; false; true; true; true; false; true; true; true]
        ∧ flush_points 0 (kinds (new ++ [StateMessage (tap_state w')]))
          = [1; 4; 7].
Proof.
  destruct (state_message_cadence_3_7 ticking_clock conform_id
              full_table_stream None None empty_world eq_refl eq_refl eq_refl)
    as [Hshape Hruns].
  destruct Hruns as [w' Hw'].
  - reflexivity.
  - eexists. reflexivity.
  - vm_compute. exact I.
  - exists w'. split; [exact Hw'|]. apply Hshape. exact Hw'.
Defined.

Lemma record_cap_aborts_sync_witness :
  let w := World two_partitions 0 [] [] in
  let w1 :=
    (_sync_records_partitions ticking_clock conform_id capped_stream
       [Some partition_a] 0 w).2 in
  _sync_records ticking_clock conform_id capped_stream None w
  = (Raised MaxRecordsLimitException,
     partition_opened capped_stream (Some partition_b) w1).
Proof.
  intros w w1.
  apply (record_cap_aborts_sync ticking_clock conform_id capped_stream None w 1
           [Some partition_a] (Some partition_b) []
           [] {[ "id" := VInt 1 ]} [] 1 1 w1).
  - reflexivity.
  - vm_compute. reflexivity.
  - vm_compute. reflexivity.
  - reflexivity.
  - reflexivity.
  - lia.
Defined.

Lemma signpost_caps_bookmark_witness :
  let raw : record := {[ "id" := VInt 1; "updated_at" := VTime 1001 ]} in
  let r :=
    _sync_records_row frozen_clock conform_id updated_at_stream None 0 raw
      empty_world in
  r.1 = Returned (0 + 1)
  ∧ emitted_rows (out r.2) = [emitted conform_id updated_at_stream raw]
  ∧ ∀ l, read_bookmark (tap_state r.2) l
         = read_bookmark (tap_state empty_world) l.
Proof.
  intros raw r.
  assert (row_ready updated_at_stream 0) as H1.
  { split; [eexists; reflexivity|]. split; [exact I|left; reflexivity]. }
  assert (replication_method updated_at_stream
          ∈ [REPLICATION_INCREMENTAL; REPLICATION_LOG_BASED]) as H2.
  { vm_compute. apply list_elem_of_here. }
  destruct (signpost_caps_bookmark frozen_clock conform_id updated_at_stream
              None 0 raw empty_world "updated_at" (VTime 1001) H1 H2)
    as (Hret & Hout & Hrows & Hread & _).
  - reflexivity.
  - vm_compute. reflexivity.
  - vm_compute. reflexivity.
  - reflexivity.
  - split; [exact Hret|]. split; [|exact Hread].
    fold r in Hout. rewrite Hout. exact Hrows.
Defined.

Lemma sorted_stream_ordering_witness :
  (∃ w',
     _sync_records ticking_clock conform_id (sorted_stream [1; 2; 3]) None
       empty_world = (Returned (), w'))
  ∧ ∃ w',
      _sync_records ticking_clock conform_id (sorted_stream [1; 3; 2])
        (Some partition_a) empty_world
      = (Raised InvalidStreamSortException, w')
      ∧ log w'
        = log empty_world
          ++ [LogSortingError 3 (truthy_ctx (Some partition_a))
                InvalidStreamSortException]
      ∧ ∃ new, out w' = out empty_world ++ new
          ∧ emitted_rows new
            = emitted conform_id (sorted_stream [1; 3; 2])
              <$> get_records (sorted_stream [1; 3; 2]) (Some partition_a).
Proof.
  split.
  - apply (proj1 (sorted_stream_ordering ticking_clock conform_id
                    (sorted_stream [1; 2; 3]) None None empty_world "id"
                    eq_refl eq_refl eq_refl eq_refl
                    ltac:(vm_compute; discriminate) I eq_refl)).
    vm_compute. reflexivity.
  - apply (proj2 (sorted_stream_ordering ticking_clock conform_id
                    (sorted_stream [1; 3; 2]) (Some partition_a)
                    (Some partition_a) empty_world "id"
                    eq_refl eq_refl eq_refl eq_refl
                    ltac:(vm_compute; discriminate) I eq_refl)).
    vm_compute. reflexivity.
Defined.

(** ** Where the statements of the specification fail *)

(** C3.  Seven rows, frequency 3: the state messages are written when 1, 4
    and 7 rows have been sent; none is written when 3 or 6 have been, nor
    before the rows of ordinal 3 and 6. *)
Lemma state_message_cadence_not_3_6 :
  let r :=
    _sync_records ticking_clock conform_id full_table_stream None empty_world in
  r.1 = Returned ()
  ∧ flush_points 0 (kinds (out r.2)) = [1; 4; 7]
  ∧ flush_points 0 (kinds (out r.2)) ≠ [3; 6; 7]
  ∧ flush_points 0 (kinds (out r.2)) ≠ [2; 5; 7].
Proof.
  repeat split; try (vm_compute; reflexivity); vm_compute; discriminate.
Qed.

(** C4.  A cap of one record, two partitions of one row each: the first
    partition is finalized, with its bookmark at 1; the cap is reached at
    the row of the second; the sync raises the limit exception and the
    output holds the one record message and no state message. *)
Lemma record_cap_no_final_state_message :
  let r :=
    _sync_records ticking_clock conform_id capped_stream None
      (World two_partitions 0 [] []) in
  r.1 = Raised MaxRecordsLimitException
  ∧ durable (read_bookmark (tap_state r.2) ("users", Some partition_a))
    = (Some "id", Some (VInt 1))
  ∧ kinds (out r.2) = [true].
Proof. repeat split; vm_compute; reflexivity. Qed.

(** ** The further theorems at concrete streams *)

Lemma apply_catalog_own_catalog_witness :
  let c :=
    [SingerCatalogEntry.Make "users" "users" users_schema [] (Some ["id"])
       (Some "updated_at") (Some "INCREMENTAL")] in
  replication_key (apply_catalog updated_at_stream (as_input_entry <$> c))
  = Some "updated_at"
  ∧ forced_replication_method
      (apply_catalog updated_at_stream (as_input_entry <$> c))
    = Some "INCREMENTAL".
Proof.
  intros c.
  destruct (apply_catalog_own_catalog updated_at_stream c
              ltac:(vm_compute; reflexivity)) as (_ & Hrk & _ & Hforced).
  split; [exact Hrk|exact Hforced].
Defined.

Lemma stripped_fields_of_input_catalog_witness :
  let c :=
    [SingerCatalogEntry.Make "users" "users" users_schema ["updated_at"]
       (Some ["id"]) (Some "updated_at") (Some "INCREMENTAL")] in
  let row : record := {[ "id" := VInt 1; "updated_at" := VTime 1001 ]} in
  pop_deselected_record_properties row (Some (as_input_entry <$> c)) "users"
  = pop_deselected_record_properties row
      (_tap_input_catalog hidden_key_stream) "users".
Proof.
  intros c row.
  exact (proj1 (stripped_fields_of_input_catalog hidden_key_stream c row
                  ltac:(vm_compute; reflexivity))).
Defined.

Lemma catalog_full_table_stops_checkpoints_witness :
  (_increment_stream_state ticking_clock
     (apply_catalog updated_at_stream [full_table_entry])
     {[ "id" := VInt 1; "updated_at" := VTime 1001 ]} None empty_world).1
  = Returned ().
Proof.
  exact (proj1 (catalog_full_table_stops_checkpoints ticking_clock
                  updated_at_stream [full_table_entry] full_table_entry
                  {[ "id" := VInt 1; "updated_at" := VTime 1001 ]} None
                  empty_world ltac:(vm_compute; reflexivity)
                  ltac:(vm_compute; reflexivity))).
Defined.

Lemma catalog_without_key_fails_checkpoints_witness :
  (_increment_stream_state ticking_clock
     (apply_catalog updated_at_stream [log_based_entry])
     {[ "id" := VInt 1 ]} None empty_world).1
  = Raised ValueError.
Proof.
  apply (catalog_without_key_fails_checkpoints ticking_clock updated_at_stream
           [log_based_entry] log_based_entry "LOG_BASED").
  - vm_compute. reflexivity.
  - reflexivity.
  - vm_compute. apply list_elem_of_further, list_elem_of_here.
  - reflexivity.
  - apply (lookup_Some_nonempty _ "id" (VInt 1)). vm_compute. reflexivity.
Defined.

Lemma limit_exception_after_cap_rows_witness :
  let w := World two_partitions 0 [] [] in
  let r := _sync_records ticking_clock conform_id capped_stream None w in
  ∃ limit new,
    _MAX_RECORDS_LIMIT capped_stream = Some limit
    ∧ limit < Z.of_nat (length (all_rows capped_stream
                                  (planned_partitions capped_stream None
                                     (tap_state w))))
    ∧ out r.2 = out w ++ new
    ∧ emitted_rows new
      = emitted conform_id capped_stream
        <$> take (Z.to_nat limit)
              (all_rows capped_stream
                 (planned_partitions capped_stream None (tap_state w))).
Proof.
  intros w r.
  apply (limit_exception_after_cap_rows ticking_clock conform_id capped_stream
           None w).
  vm_compute. reflexivity.
Defined.

Lemma sync_touches_planned_partitions_only_witness :
  let w := World two_partitions 0 [] [] in
  read_bookmark
    (tap_state
       (_sync_records ticking_clock conform_id (sorted_stream [1; 2; 3])
          (Some partition_a) w).2) ("users", Some partition_b)
  = read_bookmark (tap_state w) ("users", Some partition_b).
Proof.
  intros w.
  apply (sync_touches_planned_partitions_only ticking_clock conform_id
           (sorted_stream [1; 2; 3]) (Some partition_a) w).
  intros p Hp.
  change (p ∈ [Some partition_a]) in Hp.
  apply list_elem_of_singleton in Hp. subst p.
  vm_compute. discriminate.
Defined.

Lemma sync_abort_keeps_durable_bookmarks_witness :
  durable
    (read_bookmark
       (tap_state
          (_sync_records ticking_clock conform_id (sorted_stream [1; 3; 2])
             None empty_world).2) ("users", None))
  = durable (read_bookmark (tap_state empty_world) ("users", None)).
Proof.
  apply (sync_abort_keeps_durable_bookmarks ticking_clock conform_id
           (sorted_stream [1; 3; 2]) None None empty_world
           InvalidStreamSortException).
  - reflexivity.
  - vm_compute. reflexivity.
Defined.

Lemma state_message_cadence_witness :
  let r :=
    _sync_records ticking_clock conform_id full_table_stream None empty_world in
  ∃ new,
    out r.2 = out empty_world ++ new ++ [StateMessage (tap_state r.2)]
    ∧ flush_points 0 (kinds new)
      = filter (λ k, k ≠ 0
                     ∧ (k - 1) `mod` STATE_MSG_FREQUENCY full_table_stream = 0)
          (seqZ 0 7)
    ∧ flush_points 0 (kinds (new ++ [StateMessage (tap_state r.2)]))
      = flush_points 0 (kinds new) ++ [7].
Proof.
  intros r.
  apply (state_message_cadence ticking_clock conform_id full_table_stream None
           empty_world r.2).
  vm_compute. reflexivity.
Defined.

Lemma sync_without_rows_witness :
  ∃ w',
    _sync_records ticking_clock conform_id idle_stream None empty_world
    = (Returned (), w')
    ∧ out w' = out empty_world ++ [StateMessage (tap_state w')]
    ∧ log w' = log empty_world ++ [LogCompleted (name idle_stream) 0]
    ∧ clock w' = clock empty_world
    ∧ ∀ l, durable (read_bookmark (tap_state w') l)
           = durable (read_bookmark (tap_state empty_world) l).
Proof.
  apply (sync_without_rows ticking_clock conform_id idle_stream None
           empty_world).
  intros p _. reflexivity.
Defined.

Lemma zero_frequency_fails_at_second_row_witness :
  let r :=
    _sync_records ticking_clock conform_id zero_frequency_stream None
      empty_world in
  r.1 = Raised ZeroDivisionError
  ∧ out r.2
    = out empty_world
      ++ [record_message conform_id zero_frequency_stream {[ "id" := VInt 1 ]}
            (ticking_clock (clock empty_world))]
  ∧ log r.2 = log empty_world.
Proof.
  apply (zero_frequency_fails_at_second_row ticking_clock conform_id
           zero_frequency_stream None None [] {[ "id" := VInt 1 ]}
           {[ "id" := VInt 2 ]} [ {[ "id" := VInt 3 ]} ] empty_world).
  - reflexivity.
  - exact full_table_not_incremental.
  - eexists. reflexivity.
  - vm_compute. exact I.
  - reflexivity.
  - reflexivity.
Defined.

Lemma empty_row_is_sent_without_checkpoint_witness :
  let r :=
    _sync_records_row ticking_clock conform_id misconfigured_stream None 0 ∅
      empty_world in
  r.1 = Returned (0 + 1)
  ∧ out r.2
    = out empty_world
      ++ row_messages ticking_clock conform_id misconfigured_stream 0 ∅
           empty_world
  ∧ log r.2 = log empty_world
  ∧ ∀ l, read_bookmark (tap_state r.2) l
         = read_bookmark (tap_state empty_world) l.
Proof.
  apply (empty_row_is_sent_without_checkpoint ticking_clock conform_id
           misconfigured_stream None 0 ∅ empty_world).
  - split; [eexists; reflexivity|]. split; [exact I|left; reflexivity].
  - reflexivity.
Defined.

Lemma deselected_replication_key_raises_witness :
  let raw : record := {[ "id" := VInt 1; "updated_at" := VTime 1001 ]} in
  let r :=
    _sync_records_row ticking_clock conform_id hidden_key_stream None 0 raw
      empty_world in
  r.1 = Raised KeyError
  ∧ out r.2
    = out empty_world
      ++ row_messages ticking_clock conform_id hidden_key_stream 0 raw
           empty_world
  ∧ log r.2 = log empty_world
  ∧ ∀ l, read_bookmark (tap_state r.2) l
         = read_bookmark (tap_state empty_world) l.
Proof.
  intros raw.
  apply (deselected_replication_key_raises ticking_clock conform_id
           hidden_key_stream None 0 raw empty_world "updated_at"
           [hidden_key_entry] hidden_key_entry).
  - split; [eexists; reflexivity|]. split; [exact I|left; reflexivity].
  - vm_compute. apply list_elem_of_here.
  - reflexivity.
  - reflexivity.
  - vm_compute. reflexivity.
  - vm_compute. apply list_elem_of_here.
  - apply (lookup_Some_nonempty _ "id" (VInt 1)). vm_compute. reflexivity.
Defined.

Lemma sync_bookmarks_greatest_key_witness :
  ∃ w' greatest,
    _sync_records ticking_clock conform_id (unsorted_stream [2; 5; 3]) None
      empty_world = (Returned (), w')
    ∧ running_max None [2; 5; 3] = Some greatest
    ∧ (ascending None [2; 5; 3] → last [2; 5; 3] = Some greatest)
    ∧ read_bookmark (tap_state w')
        (name (unsorted_stream [2; 5; 3]), truthy_ctx None)
      = Bookmark (Some "id") (Some (VInt greatest)) None.
Proof.
  apply (sync_bookmarks_greatest_key ticking_clock conform_id
           (unsorted_stream [2; 5; 3]) None None empty_world "id" [2; 5; 3]).
  - vm_compute. apply list_elem_of_here.
  - reflexivity.
  - vm_compute. reflexivity.
  - vm_compute. discriminate.
  - reflexivity.
  - vm_compute. reflexivity.
  - left. reflexivity.
  - vm_compute. exact I.
  - discriminate.
Defined.

Lemma first_descent_raises_witness :
  ∃ w',
    _sync_records ticking_clock conform_id (sorted_stream [1; 3; 2; 4])
      (Some partition_a) empty_world
    = (Raised InvalidStreamSortException, w')
    ∧ log w'
      = log empty_world
        ++ [LogSortingError (Z.of_nat (length (int_rows "id" [1; 3])) + 1)
              (truthy_ctx (Some partition_a)) InvalidStreamSortException]
    ∧ (∃ new, out w' = out empty_world ++ new
         ∧ emitted_rows new
           = emitted conform_id (sorted_stream [1; 3; 2; 4])
             <$> (int_rows "id" [1; 3] ++ [ {[ "id" := VInt 2 ]} ]))
    ∧ ∀ l, durable (read_bookmark (tap_state w') l)
           = durable (read_bookmark (tap_state empty_world) l).
Proof.
  apply (first_descent_raises ticking_clock conform_id
           (sorted_stream [1; 3; 2; 4]) (Some partition_a) (Some partition_a)
           empty_world "id" (int_rows "id" [1; 3]) {[ "id" := VInt 2 ]}
           (int_rows "id" [4]) [1; 3] 2 3).
  - reflexivity.
  - vm_compute. apply list_elem_of_here.
  - reflexivity.
  - vm_compute. reflexivity.
  - vm_compute. discriminate.
  - reflexivity.
  - reflexivity.
  - vm_compute. reflexivity.
  - vm_compute. reflexivity.
  - simpl. lia.
  - reflexivity.
  - lia.
  - vm_compute. exact I.
Defined.

Lemma bookmark_not_ahead_of_clock_witness :
  let r :=
    _sync_records ticking_clock conform_id updated_at_stream None empty_world in
  durable (read_bookmark (tap_state r.2) ("users", None))
  = durable (read_bookmark (tap_state empty_world) ("users", None))
  ∨ ∃ t,
      bm_replication_key_value (read_bookmark (tap_state r.2) ("users", None))
      = Some (VTime t)
      ∧ (0 < clock r.2)%nat ∧ t ≤ ticking_clock (pred (clock r.2)).
Proof.
  intros r.
  apply (bookmark_not_ahead_of_clock ticking_clock conform_id
           updated_at_stream None None empty_world r.2 "updated_at").
  - intros a b Hab. unfold ticking_clock. lia.
  - vm_compute. apply list_elem_of_here.
  - reflexivity.
  - vm_compute. reflexivity.
  - reflexivity.
  - vm_compute. reflexivity.
Defined.
